(** * redis-go: the RESP codec and the command handlers

    A shallow embedding of [app/resp.go] (the RESP parser and writer that
    the sources keep in one file) and of [app/server.go] (the key/value
    store and the five command handlers), followed by the properties of
    the specification that concern them.

    Go strings are byte sequences: they are modelled by [string], whose
    characters are the 256 values of [ascii].  Go's [int] is the 64-bit
    signed integer of the platforms the server is built for; it is
    modelled by [Z], with the range checks and the wrap-around written
    out where the code depends on them. *)

From Stdlib Require Import ZArith String Ascii List Lia Bool.
From Stdlib Require Import DecimalString DecimalZ DecimalPos DecimalN.
From Stdlib Require Import SpecFloat.
From stdpp Require Import gmap strings.

Open Scope string_scope.
Open Scope Z_scope.

(** ** Bytes and strings *)

Definition CR : ascii := "013"%char.
Definition LF : ascii := "010"%char.
Definition NUL : ascii := "000"%char.
Definition CRLF : string := String CR (String LF "").

(** [s[:n]] and [s[n:]] for [n <= len(s)]. *)
Fixpoint str_take (n : nat) (s : string) : string :=
  match n, s with
  | S n', String c s' => String c (str_take n' s')
  | _, _ => ""
  end.

Fixpoint str_drop (n : nat) (s : string) : string :=
  match n, s with
  | S n', String _ s' => str_drop n' s'
  | _, _ => s
  end.

(** [strings.Repeat] of one byte. *)
Fixpoint str_repeat (c : ascii) (n : nat) : string :=
  match n with
  | O => ""
  | S n' => String c (str_repeat c n')
  end.

(** [n] zero bytes: what [make([]byte, n)] holds. *)
Definition zeros (n : nat) : string := str_repeat NUL n.

(** The bytes of [s] through the first [delim], and what follows it
    ([bytes.IndexByte] and the two slices taken at the index). *)
Fixpoint cut (delim : ascii) (s : string) : option (string * string) :=
  match s with
  | "" => None
  | String c s' =>
      if Ascii.eqb c delim then Some (String c "", s')
      else match cut delim s' with
           | Some (line, rest) => Some (String c line, rest)
           | None => None
           end
  end.

(** [strings.HasSuffix] and [strings.TrimSuffix]. *)
Definition HasSuffix (s suffix : string) : bool :=
  (String.length suffix <=? String.length s)%nat &&
  String.eqb (str_drop (String.length s - String.length suffix) s) suffix.

Definition TrimSuffix (s suffix : string) : string :=
  if HasSuffix s suffix
  then str_take (String.length s - String.length suffix) s
  else s.

(** [strings.ToUpper] on ASCII letters.  Go also maps the letters outside
    ASCII; the handlers below take the upper-casing function as a
    parameter, and this one instantiates it. *)
Definition upper_byte (c : ascii) : ascii :=
  let n := nat_of_ascii c in
  if ((97 <=? n) && (n <=? 122))%nat then ascii_of_nat (n - 32) else c.

Fixpoint ToUpperASCII (s : string) : string :=
  match s with
  | "" => ""
  | String c s' => String (upper_byte c) (ToUpperASCII s')
  end.

(** ** Errors *)

Inductive error : Type :=
  | io_EOF
  | io_ErrNoProgress
  | strconv_NumError               (* ErrSyntax or ErrRange *)
  | unknown_RESP_type (c : ascii).

(** ** strconv.Atoi and the [%d] verb *)

Definition minInt64 : Z := - 2 ^ 63.
Definition maxInt64 : Z := 2 ^ 63 - 1.

Definition digit (c : ascii) : option Z :=
  let n := Z.of_nat (nat_of_ascii c) in
  if (48 <=? n) && (n <=? 57) then Some (n - 48) else None.

Fixpoint digits (acc : Z) (s : string) : option Z :=
  match s with
  | "" => Some acc
  | String c s' =>
      match digit c with
      | Some d => digits (acc * 10 + d) s'
      | None => None
      end
  end.

(** An optional sign, then one decimal digit or more; the value has to fit
    [int].  (Both paths of [strconv.Atoi], the fast one and [ParseInt],
    accept this language and return this value; every failure is a
    [*strconv.NumError].) *)
Definition Atoi (s : string) : Z + error :=
  match s with
  | "" => inr strconv_NumError
  | String c s' =>
      let neg := Ascii.eqb c "-" in
      let body := if neg || Ascii.eqb c "+" then s' else s in
      match body with
      | "" => inr strconv_NumError
      | _ =>
          match digits 0 body with
          | None => inr strconv_NumError
          | Some u =>
              let n := if neg then - u else u in
              if (minInt64 <=? n) && (n <=? maxInt64) then inl n
              else inr strconv_NumError
          end
      end
  end.

(** [fmt.Sprintf("%d", n)]. *)
Definition Itoa (n : Z) : string := NilZero.string_of_int (Z.to_int n).

(** ** bufio.Reader over a connection

    The connection delivers its bytes in segments: [rd] lists the segments
    still to come, and one [Read] of the connection returns bytes of the
    first one only, as many as fit.  The end of the list is the end of the
    stream ([io.EOF]).  [buf] is the unread part of the reader's buffer,
    [b.buf[b.r:b.w]]; the buffer has [defaultBufSize] bytes, as
    [bufio.NewReader] allocates it in [NewConnection]. *)

Record Reader : Type := mkReader { buf : string; rd : list string }.

Definition defaultBufSize : nat := 4096.

Definition NewReader (conn : list string) : Reader :=
  {| buf := ""; rd := conn |}.

(** One [Read] of the connection into [n >= 1] free bytes: the bytes
    read and the connection afterwards, or [None] at the end of the
    stream.  A read blocks until there is a byte, so empty segments are
    passed over. *)
Fixpoint conn_Read (n : nat) (conn : list string)
  : option (string * list string) :=
  match conn with
  | [] => None
  | seg :: conn' =>
      match seg with
      | "" => conn_Read n conn'
      | _ =>
          Some (str_take n seg,
                match str_drop n seg with
                | "" => conn'
                | seg' => seg' :: conn'
                end)
      end
  end.

(** The bytes the connection still holds. *)
Fixpoint conn_bytes (conn : list string) : string :=
  match conn with
  | [] => ""
  | seg :: conn' => seg ++ conn_bytes conn'
  end.

(** Everything a reader has yet to hand out. *)
Definition pending (b : Reader) : string := buf b ++ conn_bytes (rd b).

(** [ReadByte]: the next buffered byte, after one [fill] when the buffer
    is empty. *)
Definition ReadByte (b : Reader) : (ascii + error) * Reader :=
  match buf b with
  | String c rest => (inl c, {| buf := rest; rd := rd b |})
  | "" =>
      match conn_Read defaultBufSize (rd b) with
      | None => (inr io_EOF, b)
      | Some (String c rest, conn') => (inl c, {| buf := rest; rd := conn' |})
      | Some ("", conn') => (inr io_ErrNoProgress, {| buf := ""; rd := conn' |})
      end
  end.

(** [Read(p)] with [len(p) = n]: the bytes copied into [p].  They come
    from the buffer when it holds any, else from a single read of the
    connection; there may be fewer than [n]. *)
Definition Read (n : nat) (b : Reader) : (string + error) * Reader :=
  match n with
  | O => (inl "", b)
  | _ =>
      match buf b with
      | "" =>
          if (defaultBufSize <=? n)%nat then
            match conn_Read n (rd b) with
            | None => (inr io_EOF, b)
            | Some (data, conn') => (inl data, {| buf := ""; rd := conn' |})
            end
          else
            match conn_Read defaultBufSize (rd b) with
            | None => (inr io_EOF, b)
            | Some (data, conn') =>
                (inl (str_take n data),
                 {| buf := str_drop n data; rd := conn' |})
            end
      | data => (inl (str_take n data), {| buf := str_drop n data; rd := rd b |})
      end
  end.

(** [ReadString(delim)]: [ReadSlice] repeated, the fragments that filled
    the buffer without a delimiter collected in [full].  Each round that
    does not find the delimiter reads from the connection, so the rounds
    are bounded by the bytes to come. *)
Fixpoint ReadString_loop (fuel : nat) (delim : ascii) (full : string)
    (b : Reader) : (string + error) * Reader :=
  match cut delim (buf b) with
  | Some (frag, rest) => (inl (full ++ frag), {| buf := rest; rd := rd b |})
  | None =>
      let '(full', kept) :=
        if (defaultBufSize <=? String.length (buf b))%nat
        then (full ++ buf b, "") else (full, buf b) in
      match fuel, conn_Read (defaultBufSize - String.length kept) (rd b) with
      | S fuel', Some (data, conn') =>
          ReadString_loop fuel' delim full' {| buf := kept ++ data; rd := conn' |}
      | _, _ => (inr io_EOF, {| buf := ""; rd := [] |})
      end
  end.

Definition ReadString (delim : ascii) (b : Reader) : (string + error) * Reader :=
  ReadString_loop (String.length (conn_bytes (rd b))) delim "" b.

(** ** RESP values (resp.go) *)

Definition RESPType : Type := ascii.

Definition SimpleString : RESPType := "+"%char.
Definition Error : RESPType := "-"%char.
Definition Integer : RESPType := ":"%char.
Definition BulkString : RESPType := "$"%char.
Definition Array : RESPType := "*"%char.

#[warnings="-register-all"]
Inductive RESPValue : Type :=
  mkRESPValue {
    Type_ : RESPType;
    Str : string;
    Num : Z;
    Bulk : string;
    Array_ : list RESPValue
  }.

(** The zero value [RESPValue{}], which [make] fills a fresh array with. *)
Definition RESPValue_zero : RESPValue := mkRESPValue NUL "" 0 "" [].

(** What a call of the parser comes to: a value, an error, or a run-time
    panic, which nothing in the server recovers from. *)
Inductive outcome (A : Type) : Type :=
  | Ok (a : A)
  | Err (e : error)
  | Panic (msg : string).
Arguments Ok {A} a.
Arguments Err {A} e.
Arguments Panic {A} msg.

(** ** The parser *)

(** [readLine]: a line through ['\n'], less a final ["\r\n"]. *)
Definition readLine (p : Reader) : (string + error) * Reader :=
  match ReadString LF p with
  | (inl line, p') => (inl (TrimSuffix line CRLF), p')
  | (inr err, p') => (inr err, p')
  end.

Definition parseSimpleString (p : Reader) : outcome RESPValue * Reader :=
  match readLine p with
  | (inr err, p') => (Err err, p')
  | (inl line, p') => (Ok (mkRESPValue SimpleString line 0 "" []), p')
  end.

Definition parseError (p : Reader) : outcome RESPValue * Reader :=
  match readLine p with
  | (inr err, p') => (Err err, p')
  | (inl line, p') => (Ok (mkRESPValue Error line 0 "" []), p')
  end.

Definition parseInteger (p : Reader) : outcome RESPValue * Reader :=
  match readLine p with
  | (inr err, p') => (Err err, p')
  | (inl line, p') =>
      match Atoi line with
      | inr err => (Err err, p')
      | inl num => (Ok (mkRESPValue Integer "" num "" []), p')
      end
  end.

(** [parseBulkString].  [make([]byte, length)] panics on a negative
    length; the result of [Read] is looked at for its error only, and the
    two [ReadByte] calls for the terminator have their results dropped. *)
Definition parseBulkString (p : Reader) : outcome RESPValue * Reader :=
  match readLine p with
  | (inr err, p1) => (Err err, p1)
  | (inl line, p1) =>
      match Atoi line with
      | inr err => (Err err, p1)
      | inl length =>
          if length =? -1 then (Ok (mkRESPValue BulkString "" 0 "" []), p1)
          else if length <? 0 then (Panic "makeslice: len out of range", p1)
          else
            match Read (Z.to_nat length) p1 with
            | (inr err, p2) => (Err err, p2)
            | (inl data, p2) =>
                let bulk :=
                  data ++ zeros (Z.to_nat length - String.length data) in
                let p3 := snd (ReadByte p2) in
                let p4 := snd (ReadByte p3) in
                (Ok (mkRESPValue BulkString "" 0 bulk []), p4)
            end
      end
  end.

(** The loop of [parseArray]: [array[i] = val] for [i] from its current
    value up to [count], one [Parse] each. *)
Fixpoint parseArray_loop
    (Parse : Reader -> option (outcome RESPValue * Reader))
    (fuel : nat) (i count : Z) (array : list RESPValue) (p : Reader)
  : option (outcome RESPValue * Reader) :=
  if i <? count then
    match fuel with
    | O => None
    | S fuel' =>
        match Parse p with
        | None => None
        | Some (Ok val, p') =>
            parseArray_loop Parse fuel' (i + 1) count
              (<[Z.to_nat i := val]> array) p'
        | Some (Err err, p') => Some (Err err, p')
        | Some (Panic msg, p') => Some (Panic msg, p')
        end
    end
  else Some (Ok (mkRESPValue Array "" 0 "" array), p).

(** [parseArray]: [make([]RESPValue, count)] panics on a negative count.
    (A count, or the length of a bulk string, beyond what the machine can
    allocate is outside the model.) *)
Definition parseArray
    (Parse : Reader -> option (outcome RESPValue * Reader))
    (fuel : nat) (p : Reader) : option (outcome RESPValue * Reader) :=
  match readLine p with
  | (inr err, p1) => Some (Err err, p1)
  | (inl line, p1) =>
      match Atoi line with
      | inr err => Some (Err err, p1)
      | inl count =>
          if count <? 0 then Some (Panic "makeslice: len out of range", p1)
          else
            parseArray_loop Parse fuel 0 count
              (replicate (Z.to_nat count) RESPValue_zero) p1
      end
  end.

(** [Parse].  Every call reads a byte before it does anything else, and
    every round of the array loop makes a call, so [fuel] above the
    number of pending bytes is never used up; [None] is the result that
    ran out of it. *)
Fixpoint Parse_fuel (fuel : nat) (p : Reader)
  : option (outcome RESPValue * Reader) :=
  match fuel with
  | O => None
  | S fuel' =>
      match ReadByte p with
      | (inr err, p') => Some (Err err, p')
      | (inl typeByte, p') =>
          if Ascii.eqb typeByte CR || Ascii.eqb typeByte LF
          then Parse_fuel fuel' p'
          else if Ascii.eqb typeByte Array
          then parseArray (Parse_fuel fuel') fuel' p'
          else if Ascii.eqb typeByte BulkString then Some (parseBulkString p')
          else if Ascii.eqb typeByte SimpleString then Some (parseSimpleString p')
          else if Ascii.eqb typeByte Error then Some (parseError p')
          else if Ascii.eqb typeByte Integer then Some (parseInteger p')
          else Some (Err (unknown_RESP_type typeByte), p')
      end
  end.

Definition Parse (p : Reader) : option (outcome RESPValue * Reader) :=
  Parse_fuel (S (String.length (pending p))) p.

(** ** The writer

    Each method formats its bytes and flushes them; the bytes written are
    the result. *)

Definition WriteSimpleString (s : string) : string := "+" ++ s ++ CRLF.
Definition WriteError (msg : string) : string := "-" ++ msg ++ CRLF.
Definition WriteBulkString (s : string) : string :=
  "$" ++ Itoa (Z.of_nat (String.length s)) ++ CRLF ++ s ++ CRLF.
Definition WriteInteger (num : Z) : string := ":" ++ Itoa num ++ CRLF.
Definition WriteNullBulkString : string := "$-1" ++ CRLF.

(** ** Time (package time)

    An instant is a reading of the monotonic clock, in nanoseconds; a
    [Duration] is an [int64] count of nanoseconds. *)

Definition Time : Type := Z.
Definition Duration : Type := Z.

Definition Millisecond : Duration := 1000000.
Definition Second : Duration := 1000000000.

(** Two's-complement wrap-around of [int64] arithmetic. *)
Definition wrap64 (z : Z) : Z := (z + 2 ^ 63) mod 2 ^ 64 - 2 ^ 63.

(** [time.Duration(n) * unit]. *)
Definition Duration_mul (n : Z) (unit : Duration) : Duration :=
  wrap64 (n * unit).

Definition Time_Add (t : Time) (d : Duration) : Time := t + d.
Definition Time_After (t u : Time) : bool := u <? t.

(** [time.Until(t)] read at [now]: [t.Sub(now)], which saturates. *)
Definition Until (now t : Time) : Duration :=
  Z.max minInt64 (Z.min maxInt64 (t - now)).

(** The readings of [time.Now()] that one call of a handler makes, in
    order. *)
Definition Clock : Type := nat -> Time.

(** [float64] is IEEE 754 binary64, rounding to nearest even. *)
Definition float64 : Type := spec_float.
Definition float64_of_int (z : Z) : float64 := binary_normalize 53 1024 z 0 false.

(** [Duration.Seconds]:
    [sec := d / Second; nsec := d % Second;
     return float64(sec) + float64(nsec)/1e9]. *)
Definition Seconds (d : Duration) : float64 :=
  let sec := Z.quot d Second in
  let nsec := Z.rem d Second in
  SFadd 53 1024 (float64_of_int sec)
    (SFdiv 53 1024 (float64_of_int nsec) (float64_of_int 1000000000)).

(** [int(f)]: the fraction is dropped.  (Go leaves the result open for a
    value that does not fit; none arises from a [Duration].) *)
Definition int_of_float64 (f : float64) : Z :=
  match f with
  | S754_finite s m e =>
      let v := if 0 <=? e then Z.pos m * 2 ^ e else Z.pos m / 2 ^ (- e) in
      if s then - v else v
  | _ => 0
  end.

(** ** The store and the handlers (server.go) *)

Record KeyValue : Type := mkKeyValue { Value : string; ExpiresAt : option Time }.

Inductive CommandHandler : Type :=
  | PingHandler
  | EchoHandler
  | SetHandler
  | GetHandler
  | TTLHandler.

Definition handlers : gmap string CommandHandler :=
  <["TTL" := TTLHandler]> (<["GET" := GetHandler]> (<["SET" := SetHandler]>
    (<["ECHO" := EchoHandler]> (<["PING" := PingHandler]> ∅)))).

Definition isExpired (now : Time) (key : string) (data : gmap string KeyValue)
  : bool :=
  match data !! key with
  | None => false
  | Some kv =>
      match ExpiresAt kv with
      | None => false
      | Some t => Time_After now t
      end
  end.

Definition cleanupExpired (now : Time) (key : string)
    (data : gmap string KeyValue) : gmap string KeyValue :=
  if isExpired now key data then delete key data else data.

Definition PingHandler_Handle (args : list string) : string :=
  WriteSimpleString "PONG".

Definition EchoHandler_Handle (args : list string) : string :=
  if (length args <? 2)%nat
  then WriteError "wrong number of arguments for 'echo' command"
  else WriteBulkString (nth 1 args "").

Definition GetHandler_Handle (args : list string) (clock : Clock)
    (data : gmap string KeyValue) : string * gmap string KeyValue :=
  if negb (length args =? 2)%nat
  then (WriteError "wrong number of arguments for 'get' command", data)
  else
    let key := nth 1 args "" in
    let data := cleanupExpired (clock 0%nat) key data in
    match data !! key with
    | None => (WriteNullBulkString, data)
    | Some kv => (WriteBulkString (Value kv), data)
    end.

Definition TTLHandler_Handle (args : list string) (clock : Clock)
    (data : gmap string KeyValue) : string * gmap string KeyValue :=
  if negb (length args =? 2)%nat
  then (WriteError "wrong number of arguments for 'ttl' command", data)
  else
    let key := nth 1 args "" in
    let data := cleanupExpired (clock 0%nat) key data in
    match data !! key with
    | None => (WriteInteger (-2), data)
    | Some kv =>
        match ExpiresAt kv with
        | None => (WriteInteger (-1), data)
        | Some t =>
            let remaining := Until (clock 1%nat) t in
            if remaining <=? 0 then (WriteInteger (-2), delete key data)
            else (WriteInteger (int_of_float64 (Seconds remaining)), data)
        end
    end.

Section Dispatch.

(** [strings.ToUpper]. *)
Variable ToUpper : string -> string.

(** The loop over the EX/PX pairs, [args[i]] and [args[i+1]] from
    [i = 3] on; [n] counts the readings of the clock made so far.  The
    result is the error reply, or the expiry the loop ends with. *)
Fixpoint SetHandler_options (opts : list string) (clock : Clock) (n : nat)
    (expiresAt : option Time) : string + option Time :=
  match opts with
  | [] => inr expiresAt
  | [_] => inl (WriteError "syntax error")
  | opt :: val :: opts' =>
      let option := ToUpper opt in
      if String.eqb option "EX" then
        match Atoi val with
        | inl seconds =>
            if seconds <=? 0
            then inl (WriteError "value is not an integer or out of range")
            else
              let expiry := Time_Add (clock n) (Duration_mul seconds Second) in
              SetHandler_options opts' clock (S n) (Some expiry)
        | inr _ => inl (WriteError "value is not an integer or out of range")
        end
      else if String.eqb option "PX" then
        match Atoi val with
        | inl milliseconds =>
            if milliseconds <=? 0
            then inl (WriteError "value is not an integer or out of range")
            else
              let expiry :=
                Time_Add (clock n) (Duration_mul milliseconds Millisecond) in
              SetHandler_options opts' clock (S n) (Some expiry)
        | inr _ => inl (WriteError "value is not an integer or out of range")
        end
      else inl (WriteError "syntax error")
  end.

Definition SetHandler_Handle (args : list string) (clock : Clock)
    (data : gmap string KeyValue) : string * gmap string KeyValue :=
  if (length args <? 3)%nat
  then (WriteError "wrong number of arguments for 'set' command", data)
  else
    let key := nth 1 args "" in
    let value := nth 2 args "" in
    match SetHandler_options (drop 3 args) clock 0 None with
    | inl reply => (reply, data)
    | inr expiresAt =>
        (WriteSimpleString "OK",
         <[key := mkKeyValue value expiresAt]> data)
    end.

(** [handler.Handle(cmd, writer)] through the interface. *)
Definition Handle (h : CommandHandler) (args : list string) (clock : Clock)
    (data : gmap string KeyValue) : string * gmap string KeyValue :=
  match h with
  | PingHandler => (PingHandler_Handle args, data)
  | EchoHandler => (EchoHandler_Handle args, data)
  | SetHandler => SetHandler_Handle args clock data
  | GetHandler => GetHandler_Handle args clock data
  | TTLHandler => TTLHandler_Handle args clock data
  end.

Definition HandleCommand (cmd : list string) (clock : Clock)
    (data : gmap string KeyValue) : string * gmap string KeyValue :=
  match cmd with
  | [] => (WriteError "empty command", data)
  | name :: _ =>
      let command := ToUpper name in
      match handlers !! command with
      | None => (WriteError ("unknown command '" ++ command ++ "'"), data)
      | Some handler => Handle handler cmd clock data
      end
  end.

(** A run of the server on one store in which the calls come one after
    the other, none starting before the one before it has returned (the
    calls of one connection): the calls made, each with the clock
    readings it sees; the replies are dropped. *)
Fixpoint run (calls : list (CommandHandler * list string * Clock))
    (data : gmap string KeyValue) : gmap string KeyValue :=
  match calls with
  | [] => data
  | (h, args, clock) :: calls' => run calls' (snd (Handle h args clock data))
  end.

End Dispatch.

(** The store holds [key] with [value] and no expiry: the entry that SET
    without options writes. *)
Definition no_expiry_entry (key value : string) (data : gmap string KeyValue) : Prop :=
  data !! key = Some (mkKeyValue value None).

(** ** The connection (connection.go) *)

(** [extractArgs]: [args[i]] is the payload of the [i]-th element, a bulk
    or a simple string; any other element has the error written and
    [nil] returned.  The result is the bytes written and the slice
    ([None] for [nil]). *)
Fixpoint extractArgs_loop (i : nat) (array : list RESPValue)
    (args : list string) : string * option (list string) :=
  match array with
  | [] => ("", Some args)
  | arg :: array' =>
      if Ascii.eqb (Type_ arg) BulkString
      then extractArgs_loop (S i) array' (<[i := Bulk arg]> args)
      else if Ascii.eqb (Type_ arg) SimpleString
      then extractArgs_loop (S i) array' (<[i := Str arg]> args)
      else (WriteError "invalid argument type", None)
  end.

Definition extractArgs (value : RESPValue) : string * option (list string) :=
  extractArgs_loop 0 (Array_ value)
    (replicate (length (Array_ value)) "").

(** How [Connection.Handle] returns: after an error of the parser, or not
    at all, when the parser panics. *)
Inductive ended : Type :=
  | Closed (err : error)
  | Crashed (msg : string).

(** What a connection leaves behind: how it ended, the bytes written to
    the client, and the store. *)
Definition session : Type := ended * string * gmap string KeyValue.

(** [w] is written before the rest of the session runs. *)
Definition wrote (w : string) (rest : option session) : option session :=
  match rest with
  | Some (e, out, data) => Some (e, w ++ out, data)
  | None => None
  end.

(** The loop of [Connection.Handle], for one connection with the store
    to itself.  [clocks n] holds the clock readings of the [n]-th command
    that reaches [HandleCommand].  Every round that goes on has decoded a
    value, which takes a byte or more, so [fuel] above the number of
    pending bytes is never used up. *)
Fixpoint Connection_Handle_loop (ToUpper : string -> string) (fuel : nat)
    (p : Reader) (clocks : nat -> Clock) (n : nat)
    (data : gmap string KeyValue) : option session :=
  match fuel with
  | O => None
  | S fuel' =>
      match Parse p with
      | None => None
      | Some (Err err, _) => Some (Closed err, "", data)
      | Some (Panic msg, _) => Some (Crashed msg, "", data)
      | Some (Ok value, p') =>
          if negb (Ascii.eqb (Type_ value) Array)
          then wrote (WriteError "expected array")
                 (Connection_Handle_loop ToUpper fuel' p' clocks n data)
          else
            match extractArgs value with
            | (w, None) =>
                wrote w (Connection_Handle_loop ToUpper fuel' p' clocks n data)
            | (_, Some args) =>
                let '(reply, data') :=
                  HandleCommand ToUpper args (clocks n) data in
                wrote reply
                  (Connection_Handle_loop ToUpper fuel' p' clocks (S n) data')
            end
      end
  end.

Definition Connection_Handle (ToUpper : string -> string) (p : Reader)
    (clocks : nat -> Clock) (data : gmap string KeyValue) : option session :=
  Connection_Handle_loop ToUpper (S (String.length (pending p))) p clocks 0
    data.

(** ** What a client sends *)

(** The value that a bulk string decodes to, and the payload that
    [extractArgs] takes from an element. *)
Definition bulk_value (s : string) : RESPValue :=
  mkRESPValue BulkString "" 0 s [].

Definition payload (v : RESPValue) : string :=
  if Ascii.eqb (Type_ v) BulkString then Bulk v else Str v.

(** A command on the wire: an array frame of bulk strings. *)
Fixpoint bulk_frames (args : list string) : string :=
  match args with
  | [] => ""
  | arg :: args' => WriteBulkString arg ++ bulk_frames args'
  end.

Definition command_frame (args : list string) : string :=
  "*" ++ Itoa (Z.of_nat (length args)) ++ CRLF ++ bulk_frames args.

Fixpoint command_frames (cmds : list (list string)) : string :=
  match cmds with
  | [] => ""
  | cmd :: cmds' => command_frame cmd ++ command_frames cmds'
  end.

(** The replies to a list of commands handled one after the other, and
    the store they leave. *)
Fixpoint serve (ToUpper : string -> string) (cmds : list (list string))
    (clocks : nat -> Clock) (n : nat) (data : gmap string KeyValue)
  : string * gmap string KeyValue :=
  match cmds with
  | [] => ("", data)
  | cmd :: cmds' =>
      let '(reply, data') := HandleCommand ToUpper cmd (clocks n) data in
      let '(out, data'') := serve ToUpper cmds' clocks (S n) data' in
      (reply ++ out, data'')
  end.

(** ** The two critical sections of TTL

    The handlers of different connections run in goroutines of their own
    on the one store.  SET and GET hold the mutex for all they do to the
    store.  [TTLHandler.Handle] takes it twice: once to clean up and to
    look the key up, and, after it has let go of it and read the clock,
    once more to delete the key.  Whole calls of other handlers can take
    place in between. *)

(** The first critical section: [cleanupExpired(key)] and
    [kv, exists := h.server.data[key]]; the result is what the handler
    holds after [Unlock] ([None] for [!exists]) and the store. *)
Definition TTLHandler_Handle_lookup (key : string) (clock : Clock)
    (data : gmap string KeyValue) : option KeyValue * gmap string KeyValue :=
  let data := cleanupExpired (clock 0%nat) key data in
  (data !! key, data).

(** The rest of the call, on the store as it is by then: the reply is
    decided from the [kv] looked up before, and the second critical
    section is [delete(h.server.data, key)]. *)
Definition TTLHandler_Handle_reply (key : string) (clock : Clock)
    (kv : option KeyValue) (data : gmap string KeyValue)
  : string * gmap string KeyValue :=
  match kv with
  | None => (WriteInteger (-2), data)
  | Some kv =>
      match ExpiresAt kv with
      | None => (WriteInteger (-1), data)
      | Some t =>
          let remaining := Until (clock 1%nat) t in
          if remaining <=? 0 then (WriteInteger (-2), delete key data)
          else (WriteInteger (int_of_float64 (Seconds remaining)), data)
      end
  end.

(** * Properties *)

#[local] Arguments String.append !s1 s2 : simpl nomatch.

(** ** Strings *)

Lemma str_app_nil_r (s : string) : s ++ "" = s.
Proof. induction s as [|c s IH]; simpl; [reflexivity | now rewrite IH]. Qed.

Lemma str_app_assoc (a b c : string) : (a ++ b) ++ c = a ++ b ++ c.
Proof. induction a as [|x a IH]; simpl; [reflexivity | now rewrite IH]. Qed.

Lemma str_app_length (a b : string) :
  String.length (a ++ b) = (String.length a + String.length b)%nat.
Proof. induction a as [|x a IH]; simpl; [reflexivity | now rewrite IH]. Qed.

Lemma str_take_drop (n : nat) (s : string) : str_take n s ++ str_drop n s = s.
Proof.
  revert s; induction n as [|n IH]; intros [|c s]; simpl; try reflexivity.
  now rewrite IH.
Qed.

Lemma str_take_length (n : nat) (s : string) :
  String.length (str_take n s) = Nat.min n (String.length s).
Proof.
  revert s; induction n as [|n IH]; intros [|c s]; simpl; try reflexivity.
  now rewrite IH.
Qed.

Lemma str_take_app (a b : string) : str_take (String.length a) (a ++ b) = a.
Proof. induction a as [|x a IH]; simpl; [now destruct b | now rewrite IH]. Qed.

Lemma str_drop_app (a b : string) : str_drop (String.length a) (a ++ b) = b.
Proof. induction a as [|x a IH]; simpl; [reflexivity | exact IH]. Qed.

Lemma str_length_0 (s : string) : String.length s = 0%nat -> s = "".
Proof. now destruct s. Qed.

(** [cut] finds the first delimiter. *)
Lemma cut_Some (d : ascii) (s frag rest : string) :
  cut d s = Some (frag, rest) ->
  exists l, frag = l ++ String d "" /\ cut d l = None /\ s = frag ++ rest.
Proof.
  revert frag rest; induction s as [|c s IH]; simpl; intros frag rest H;
    [discriminate|].
  destruct (Ascii.eqb_spec c d) as [->|Hc].
  - injection H as <- <-. now exists "".
  - destruct (cut d s) as [[l0 r0]|] eqn:E; [|discriminate].
    injection H as <- <-.
    destruct (IH _ _ eq_refl) as (l & -> & Hl & ->).
    exists (String c l); simpl. repeat split.
    destruct (Ascii.eqb_spec c d); [contradiction|]. now rewrite Hl.
Qed.

Lemma cut_app_None (d : ascii) (a b : string) :
  cut d a = None ->
  cut d (a ++ b) =
    match cut d b with
    | Some (frag, rest) => Some (a ++ frag, rest)
    | None => None
    end.
Proof.
  induction a as [|c a IH]; simpl; intros H.
  - now destruct (cut d b) as [[? ?]|].
  - destruct (Ascii.eqb c d); [discriminate|].
    destruct (cut d a) as [[? ?]|]; [discriminate|].
    rewrite IH by reflexivity. now destruct (cut d b) as [[? ?]|].
Qed.

Lemma cut_app_Some (d : ascii) (a b frag rest : string) :
  cut d a = Some (frag, rest) -> cut d (a ++ b) = Some (frag, rest ++ b).
Proof.
  revert frag rest; induction a as [|c a IH]; simpl; intros frag rest H;
    [discriminate|].
  destruct (Ascii.eqb c d); [now injection H as <- <-|].
  destruct (cut d a) as [[l0 r0]|]; [|discriminate].
  injection H as <- <-. now rewrite (IH _ _ eq_refl).
Qed.

Lemma cut_line (d : ascii) (l rest : string) :
  cut d l = None -> cut d (l ++ String d rest) = Some (l ++ String d "", rest).
Proof.
  intros H. rewrite cut_app_None by exact H. simpl.
  now rewrite Ascii.eqb_refl.
Qed.

Lemma cut_None_app (d : ascii) (a b : string) :
  cut d (a ++ b) = None -> cut d a = None /\ cut d b = None.
Proof.
  intros H. destruct (cut d a) as [[f r]|] eqn:Ea.
  - now rewrite (cut_app_Some _ _ _ _ _ Ea) in H.
  - rewrite cut_app_None in H by exact Ea.
    now destruct (cut d b) as [[? ?]|].
Qed.

(** A delimiter-free prefix of a stream lies within its first line. *)
Lemma prefix_of_line (d : ascii) (a c l rest : string) :
  cut d a = None -> cut d l = None -> a ++ c = l ++ String d rest ->
  exists l2, l = a ++ l2 /\ c = l2 ++ String d rest.
Proof.
  revert l; induction a as [|x a IH]; simpl; intros l Ha Hl E.
  - now exists l.
  - destruct (Ascii.eqb_spec x d) as [->|Hx]; [discriminate|].
    destruct (cut d a) as [[? ?]|] eqn:Ea; [discriminate|].
    destruct l as [|y l]; simpl in *.
    + injection E as -> _. contradiction.
    + injection E as -> E.
      destruct (Ascii.eqb y d); [discriminate|].
      destruct (cut d l) as [[? ?]|] eqn:El; [discriminate|].
      destruct (IH l eq_refl El E) as (l2 & -> & ->).
      now exists l2.
Qed.

(** ** TrimSuffix on a line *)

Lemma TrimSuffix_CRLF (l : string) :
  TrimSuffix (l ++ CRLF) CRLF = l.
Proof.
  unfold TrimSuffix, HasSuffix.
  rewrite str_app_length. change (String.length CRLF) with 2%nat.
  replace (String.length l + 2 - 2)%nat with (String.length l) by lia.
  rewrite str_drop_app, str_take_app.
  replace (2 <=? String.length l + 2)%nat with true
    by (symmetry; apply Nat.leb_le; lia).
  reflexivity.
Qed.

Lemma HasSuffix_spec (s suffix : string) :
  HasSuffix s suffix = true <-> exists l, s = l ++ suffix.
Proof.
  unfold HasSuffix. rewrite andb_true_iff, Nat.leb_le, String.eqb_eq. split.
  - intros [Hle E].
    exists (str_take (String.length s - String.length suffix) s).
    pose proof (str_take_drop (String.length s - String.length suffix) s) as H.
    rewrite E in H. now symmetry.
  - intros [l ->]. rewrite str_app_length. split; [lia|].
    replace (String.length l + String.length suffix - String.length suffix)%nat
      with (String.length l) by lia.
    apply str_drop_app.
Qed.

Lemma TrimSuffix_other (s suffix : string) :
  (forall l, s <> l ++ suffix) -> TrimSuffix s suffix = s.
Proof.
  intros H. unfold TrimSuffix.
  destruct (HasSuffix s suffix) eqn:E; [|reflexivity].
  apply HasSuffix_spec in E as [l ->]. now destruct (H l).
Qed.

(** ** The buffered reader *)

Lemma conn_bytes_rest (n : nat) (seg : string) (conn : list string) :
  conn_bytes match str_drop n seg with
             | "" => conn
             | seg' => seg' :: conn
             end = str_drop n seg ++ conn_bytes conn.
Proof. now destruct (str_drop n seg). Qed.

Lemma conn_Read_Some (n : nat) (conn conn' : list string) (data : string) :
  (1 <= n)%nat -> conn_Read n conn = Some (data, conn') ->
  data ++ conn_bytes conn' = conn_bytes conn /\ data <> "" /\
  (String.length data <= n)%nat.
Proof.
  intros Hn. induction conn as [|seg conn IH]; simpl; [discriminate|].
  destruct seg as [|c seg]; [exact IH|].
  intros [= <- <-]. rewrite conn_bytes_rest, <- str_app_assoc, str_take_drop.
  repeat split.
  - destruct n; [lia | discriminate].
  - rewrite str_take_length. lia.
Qed.

Lemma conn_Read_None (n : nat) (conn : list string) :
  conn_Read n conn = None -> conn_bytes conn = "".
Proof.
  induction conn as [|seg conn IH]; simpl; [reflexivity|].
  destruct seg; [exact IH | discriminate].
Qed.

(** [ReadByte] hands out the first pending byte; it fails at the end of
    the stream only. *)
Lemma ReadByte_spec (b : Reader) :
  match pending b with
  | "" => ReadByte b = (inr io_EOF, b)
  | String c rest =>
      exists b', ReadByte b = (inl c, b') /\ pending b' = rest
  end.
Proof.
  unfold ReadByte, pending. destruct b as [bf conn]; simpl.
  destruct bf as [|c bf]; simpl; [|eauto].
  destruct (conn_Read defaultBufSize conn) as [[data conn']|] eqn:E.
  - apply conn_Read_Some in E as (<- & Hne & _); [|unfold defaultBufSize; lia].
    destruct data as [|c data]; [contradiction|]. simpl. eauto.
  - now rewrite (conn_Read_None _ _ E).
Qed.

Lemma ReadByte_pending (b : Reader) :
  pending (snd (ReadByte b)) = str_drop 1 (pending b).
Proof.
  pose proof (ReadByte_spec b) as H. destruct (pending b) as [|c rest] eqn:E.
  - rewrite H. simpl. exact E.
  - destruct H as (b' & -> & <-). reflexivity.
Qed.

(** One round of the loop. *)
Lemma ReadString_loop_eq (fuel : nat) (d : ascii) (full : string) (b : Reader) :
  ReadString_loop fuel d full b =
  match cut d (buf b) with
  | Some (frag, rest) => (inl (full ++ frag), {| buf := rest; rd := rd b |})
  | None =>
      let '(full', kept) :=
        if (defaultBufSize <=? String.length (buf b))%nat
        then (full ++ buf b, "") else (full, buf b) in
      match fuel, conn_Read (defaultBufSize - String.length kept) (rd b) with
      | S fuel', Some (data, conn') =>
          ReadString_loop fuel' d full' {| buf := kept ++ data; rd := conn' |}
      | _, _ => (inr io_EOF, {| buf := ""; rd := [] |})
      end
  end.
Proof. destruct fuel; reflexivity. Qed.

(** What the loop keeps in the buffer before it reads on. *)
Lemma ReadString_kept (full bf : string) :
  let st := if (defaultBufSize <=? String.length bf)%nat
            then (full ++ bf, "") else (full, bf) in
  fst st ++ snd st = full ++ bf /\ (snd st = "" \/ snd st = bf) /\
  (String.length (snd st) < defaultBufSize)%nat.
Proof.
  destruct (Nat.leb_spec defaultBufSize (String.length bf)); cbn [fst snd];
    rewrite ?str_app_nil_r; repeat split; auto.
  unfold defaultBufSize; cbn [String.length]; lia.
Qed.

(** [ReadString] on a stream that holds a delimiter: the line through it,
    whatever the segments and however often the buffer fills up. *)
Lemma ReadString_loop_line (d : ascii) (fuel : nat) :
  forall (full : string) (b : Reader) (l rest : string),
    pending b = l ++ String d rest -> cut d l = None ->
    (String.length (conn_bytes (rd b)) <= fuel)%nat ->
    exists b', ReadString_loop fuel d full b = (inl (full ++ l ++ String d ""), b')
               /\ pending b' = rest.
Proof.
  induction fuel as [|fuel IH]; intros full [bf conn] l rest Hp Hl Hfuel;
    unfold pending in Hp; cbn [buf rd] in Hp, Hfuel;
    rewrite ReadString_loop_eq; cbn [buf rd].
  - apply Nat.le_0_r, str_length_0 in Hfuel. rewrite Hfuel, str_app_nil_r in Hp.
    subst bf. rewrite (cut_line _ _ _ Hl). eexists; split; eauto.
    unfold pending; cbn [buf rd]. now rewrite Hfuel, str_app_nil_r.
  - destruct (cut d bf) as [[frag r]|] eqn:Ec.
    + pose proof (cut_app_Some _ _ (conn_bytes conn) _ _ Ec) as H.
      rewrite Hp, (cut_line _ _ _ Hl) in H. injection H as <- ->.
      eexists; split; eauto.
    + destruct (prefix_of_line _ _ _ _ _ Ec Hl Hp) as (l2 & -> & Hc).
      apply cut_None_app in Hl as [_ Hl2].
      pose proof (ReadString_kept full bf) as Hst. cbv zeta in Hst.
      destruct (if (defaultBufSize <=? String.length bf)%nat
                then (full ++ bf, "") else (full, bf)) as [full' kept].
      cbn [fst snd] in Hst. destruct Hst as (Hfk & Hk & Hlen).
      destruct (conn_Read (defaultBufSize - String.length kept) conn)
        as [[data conn']|] eqn:Er.
      * apply conn_Read_Some in Er as (Hd & Hne & _); [|lia].
        assert (Hfuel' : (String.length (conn_bytes conn') <= fuel)%nat).
        { rewrite <- Hd, str_app_length in Hfuel. destruct data; [easy|].
          cbn [String.length] in Hfuel. lia. }
        destruct (IH full' {| buf := kept ++ data; rd := conn' |}
                    (kept ++ l2) rest) as (b' & E & Hb'); cbn [buf rd]; auto.
        -- unfold pending; cbn [buf rd].
           now rewrite !str_app_assoc, Hd, Hc.
        -- rewrite cut_app_None, Hl2; [reflexivity|].
           destruct Hk as [-> | ->]; [reflexivity | exact Ec].
        -- exists b'. split; [|exact Hb'].
           rewrite E. rewrite <- !str_app_assoc, Hfk. reflexivity.
      * apply conn_Read_None in Er. rewrite Er in Hc. now destruct l2.
Qed.

Lemma ReadString_line (d : ascii) (b : Reader) (l rest : string) :
  pending b = l ++ String d rest -> cut d l = None ->
  exists b', ReadString d b = (inl (l ++ String d ""), b') /\ pending b' = rest.
Proof.
  intros Hp Hl. unfold ReadString.
  destruct (ReadString_loop_line d _ "" b l rest Hp Hl (Nat.le_refl _))
    as (b' & E & Hb').
  exists b'. now split.
Qed.

(** Without a delimiter to come, [ReadString] reaches the end of the
    stream and fails. *)
Lemma ReadString_loop_EOF (d : ascii) (fuel : nat) :
  forall (full : string) (b : Reader),
    cut d (pending b) = None ->
    ReadString_loop fuel d full b = (inr io_EOF, {| buf := ""; rd := [] |}).
Proof.
  induction fuel as [|fuel IH]; intros full [bf conn] Hp;
    unfold pending in Hp; cbn [buf rd] in Hp;
    apply cut_None_app in Hp as [Hb Hc];
    rewrite ReadString_loop_eq; cbn [buf rd]; rewrite Hb.
  - now destruct (defaultBufSize <=? String.length bf)%nat.
  - pose proof (ReadString_kept full bf) as Hst. cbv zeta in Hst.
    destruct (if (defaultBufSize <=? String.length bf)%nat
              then (full ++ bf, "") else (full, bf)) as [full' kept].
    cbn [fst snd] in Hst. destruct Hst as (_ & Hk & Hlen).
    destruct (conn_Read (defaultBufSize - String.length kept) conn)
      as [[data conn']|] eqn:Er; [|reflexivity].
    apply conn_Read_Some in Er as (Hd & _ & _); [|lia].
    rewrite <- Hd in Hc. apply cut_None_app in Hc as [Hc1 Hc2].
    apply IH. unfold pending; cbn [buf rd].
    rewrite str_app_assoc, cut_app_None
      by (destruct Hk as [-> | ->]; [reflexivity | exact Hb]).
    rewrite cut_app_None by exact Hc1. now rewrite Hc2.
Qed.

(** [readLine] on a stream that holds a line. *)
Lemma readLine_line (p : Reader) (l rest : string) :
  pending p = l ++ String LF rest -> cut LF l = None ->
  exists p', readLine p = (inl (TrimSuffix (l ++ String LF "") CRLF), p')
             /\ pending p' = rest.
Proof.
  intros Hp Hl. destruct (ReadString_line LF p l rest Hp Hl) as (p' & E & Hp').
  exists p'. unfold readLine. now rewrite E.
Qed.

Lemma readLine_EOF (p : Reader) :
  cut LF (pending p) = None ->
  readLine p = (inr io_EOF, {| buf := ""; rd := [] |}).
Proof.
  intros Hp. unfold readLine, ReadString.
  now rewrite (ReadString_loop_EOF LF _ "" p Hp).
Qed.

(** ** Atoi reads back what [%d] prints *)

Lemma digits_uint_acc (d : Decimal.uint) :
  forall acc : positive,
    digits (Z.pos acc) (NilEmpty.string_of_uint d)
    = Some (Z.pos (Pos.of_uint_acc d acc)).
Proof.
  induction d as [|d IH|d IH|d IH|d IH|d IH|d IH|d IH|d IH|d IH|d IH];
    intros acc; [reflexivity|..];
    cbn [NilEmpty.string_of_uint digits Pos.of_uint_acc];
    match goal with
    | |- context [digit ?c] =>
        let v := eval vm_compute in (digit c) in change (digit c) with v
    end;
    cbv iota beta; rewrite <- IH; f_equal; lia.
Qed.

Lemma digits_uint (d : Decimal.uint) :
  digits 0 (NilEmpty.string_of_uint d) = Some (Z.of_N (Pos.of_uint d)).
Proof.
  induction d as [|d IH|d IH|d IH|d IH|d IH|d IH|d IH|d IH|d IH|d IH];
    [reflexivity | exact IH | ..];
    cbn [NilEmpty.string_of_uint digits Pos.of_uint];
    exact (digits_uint_acc d _).
Qed.

Lemma string_of_uint_first (d : Decimal.uint) :
  d <> Decimal.Nil ->
  exists c s, NilEmpty.string_of_uint d = String c s /\
              Ascii.eqb c "-" = false /\ Ascii.eqb c "+" = false.
Proof. destruct d; [easy|..]; intros _; do 2 eexists; repeat split. Qed.

Lemma Atoi_digits (c : ascii) (s : string) (u : Z) :
  Ascii.eqb c "-" = false -> Ascii.eqb c "+" = false ->
  digits 0 (String c s) = Some u -> 0 <= u <= maxInt64 ->
  Atoi (String c s) = inl u /\ Atoi (String "-" (String c s)) = inl (- u).
Proof.
  intros Hm Hp Hd Hu. unfold Atoi. rewrite Hm, Hp. cbn [orb Ascii.eqb Bool.eqb].
  rewrite Hd.
  replace ((minInt64 <=? u) && (u <=? maxInt64)) with true
    by (symmetry; apply andb_true_iff; unfold minInt64, maxInt64 in *; lia).
  replace ((minInt64 <=? - u) && (- u <=? maxInt64)) with true
    by (symmetry; apply andb_true_iff; unfold minInt64, maxInt64 in *; lia).
  now split.
Qed.

Lemma Atoi_Itoa (n : Z) :
  minInt64 <= n <= maxInt64 -> Atoi (Itoa n) = inl n.
Proof.
  intros Hn. destruct n as [|p|p]; [reflexivity|..]; unfold Itoa;
    cbn [Z.to_int NilZero.string_of_int];
    pose proof (DecimalPos.Unsigned.to_uint_nonnil p) as Hnil;
    destruct (string_of_uint_first _ Hnil) as (c & s & E & Hm & Hp);
    pose proof (digits_uint (Pos.to_uint p)) as Hd;
    rewrite DecimalPos.Unsigned.of_to in Hd; cbn [Z.of_N] in Hd; rewrite E in Hd;
    replace (NilZero.string_of_uint (Pos.to_uint p)) with (String c s)
      by (rewrite <- E; now destruct (Pos.to_uint p)).
  - apply (Atoi_digits c s (Z.pos p) Hm Hp Hd). unfold minInt64 in Hn. lia.
  - destruct (Z.eq_dec (Z.neg p) minInt64) as [Emin|Hmin].
    + unfold Atoi. cbn [Ascii.eqb Bool.eqb orb]. rewrite Hd.
      change (- Z.pos p) with (Z.neg p). rewrite Emin. reflexivity.
    + change (Z.neg p) with (- Z.pos p).
      apply (Atoi_digits c s (Z.pos p) Hm Hp Hd).
      unfold minInt64, maxInt64 in *. lia.
Qed.

Lemma digits_no_LF (s : string) :
  forall acc u, digits acc s = Some u -> cut LF s = None.
Proof.
  induction s as [|c s IH]; intros acc u; cbn [digits cut]; [reflexivity|].
  destruct (digit c) as [k|] eqn:Ek; [|discriminate].
  intros H. destruct (Ascii.eqb_spec c LF) as [->|_]; [discriminate Ek|].
  now rewrite (IH _ _ H).
Qed.

Lemma Itoa_no_LF (n : Z) : cut LF (Itoa n) = None.
Proof.
  assert (H : forall p, cut LF (NilZero.string_of_uint (Pos.to_uint p)) = None).
  { intros p. pose proof (digits_uint (Pos.to_uint p)) as Hd.
    pose proof (DecimalPos.Unsigned.to_uint_nonnil p) as Hnil.
    replace (NilZero.string_of_uint (Pos.to_uint p))
      with (NilEmpty.string_of_uint (Pos.to_uint p))
      by now destruct (Pos.to_uint p).
    exact (digits_no_LF _ _ _ Hd). }
  destruct n as [|p|p]; [reflexivity | apply H |].
  unfold Itoa; cbn [Z.to_int NilZero.string_of_int cut].
  change (Ascii.eqb "-" LF) with false. cbv iota. now rewrite H.
Qed.

(** ** The parser, frame by frame *)

Ltac decide_tag :=
  repeat match goal with
    | |- context [Ascii.eqb ?a ?b] =>
        let v := eval vm_compute in (Ascii.eqb a b) in
        change (Ascii.eqb a b) with v
    end;
  cbv beta iota delta [orb].

(** After the type byte, [Parse] is the parser of that type. *)
Lemma Parse_tag (p : Reader) (c : ascii) (rest : string) :
  pending p = String c rest ->
  exists p1, ReadByte p = (inl c, p1) /\ pending p1 = rest /\
    Parse p =
      let fuel := String.length (pending p) in
      if Ascii.eqb c CR || Ascii.eqb c LF then Parse_fuel fuel p1
      else if Ascii.eqb c Array then parseArray (Parse_fuel fuel) fuel p1
      else if Ascii.eqb c BulkString then Some (parseBulkString p1)
      else if Ascii.eqb c SimpleString then Some (parseSimpleString p1)
      else if Ascii.eqb c Error then Some (parseError p1)
      else if Ascii.eqb c Integer then Some (parseInteger p1)
      else Some (Err (unknown_RESP_type c), p1).
Proof.
  intros Hp. pose proof (ReadByte_spec p) as H. rewrite Hp in H.
  destruct H as (p1 & E & Hp1). exists p1. repeat split; auto.
  unfold Parse. cbn [Parse_fuel]. now rewrite E.
Qed.

Lemma Parse_SimpleString_line (p : Reader) (l rest : string) :
  pending p = String SimpleString (l ++ String LF rest) -> cut LF l = None ->
  exists p',
    Parse p = Some (Ok (mkRESPValue SimpleString
                          (TrimSuffix (l ++ String LF "") CRLF) 0 "" []), p')
    /\ pending p' = rest.
Proof.
  intros Hp Hl. destruct (Parse_tag _ _ _ Hp) as (p1 & _ & Hp1 & ->).
  destruct (readLine_line _ _ _ Hp1 Hl) as (p' & E & Hp').
  exists p'. split; [|exact Hp']. decide_tag.
  unfold parseSimpleString. now rewrite E.
Qed.

Lemma Parse_Error_line (p : Reader) (l rest : string) :
  pending p = String Error (l ++ String LF rest) -> cut LF l = None ->
  exists p',
    Parse p = Some (Ok (mkRESPValue Error
                          (TrimSuffix (l ++ String LF "") CRLF) 0 "" []), p')
    /\ pending p' = rest.
Proof.
  intros Hp Hl. destruct (Parse_tag _ _ _ Hp) as (p1 & _ & Hp1 & ->).
  destruct (readLine_line _ _ _ Hp1 Hl) as (p' & E & Hp').
  exists p'. split; [|exact Hp']. decide_tag.
  unfold parseError. now rewrite E.
Qed.

Lemma Parse_Integer_line (p : Reader) (l rest : string) (n : Z) :
  pending p = String Integer (l ++ String LF rest) -> cut LF l = None ->
  Atoi (TrimSuffix (l ++ String LF "") CRLF) = inl n ->
  exists p',
    Parse p = Some (Ok (mkRESPValue Integer "" n "" []), p')
    /\ pending p' = rest.
Proof.
  intros Hp Hl Hn. destruct (Parse_tag _ _ _ Hp) as (p1 & _ & Hp1 & ->).
  destruct (readLine_line _ _ _ Hp1 Hl) as (p' & E & Hp').
  exists p'. split; [|exact Hp']. decide_tag.
  unfold parseInteger. now rewrite E, Hn.
Qed.

(** A line of the writer: content, then ["\r\n"]. *)
Lemma line_CRLF (s rest : string) :
  s ++ CRLF ++ rest = (s ++ String CR "") ++ String LF rest /\
  TrimSuffix ((s ++ String CR "") ++ String LF "") CRLF = s.
Proof.
  split; [now rewrite str_app_assoc|].
  rewrite str_app_assoc. apply TrimSuffix_CRLF.
Qed.

Lemma cut_CR (s : string) : cut LF s = None -> cut LF (s ++ String CR "") = None.
Proof. intros H. now rewrite cut_app_None by exact H. Qed.

(** Round trips that hold: simple strings and errors free of ['\n'], and
    every integer, on any stream and any segmentation of it. *)

(** X1.  A simple string without ['\n'] in it, written by
    [WriteSimpleString], is read back by [Parse] as the same string,
    with exactly its frame consumed, however the connection cuts the
    stream into segments and whatever follows the frame. *)
Lemma roundtrip_SimpleString (p : Reader) (s rest : string) :
  pending p = WriteSimpleString s ++ rest -> cut LF s = None ->
  exists p', Parse p = Some (Ok (mkRESPValue SimpleString s 0 "" []), p')
             /\ pending p' = rest.
Proof.
  intros Hp Hs. unfold WriteSimpleString in Hp. cbn [String.append] in Hp.
  rewrite str_app_assoc in Hp.
  destruct (line_CRLF s rest) as [E1 E2]. rewrite E1 in Hp.
  destruct (Parse_SimpleString_line _ _ _ Hp (cut_CR _ Hs)) as (p' & E & Hp').
  exists p'. now rewrite E, E2.
Qed.

(** X2.  An error message without ['\n'] in it, written by
    [WriteError], is read back by [Parse] as the same message, with
    exactly its frame consumed, on every segmentation of the stream. *)
Lemma roundtrip_Error (p : Reader) (s rest : string) :
  pending p = WriteError s ++ rest -> cut LF s = None ->
  exists p', Parse p = Some (Ok (mkRESPValue Error s 0 "" []), p')
             /\ pending p' = rest.
Proof.
  intros Hp Hs. unfold WriteError in Hp. cbn [String.append] in Hp.
  rewrite str_app_assoc in Hp.
  destruct (line_CRLF s rest) as [E1 E2]. rewrite E1 in Hp.
  destruct (Parse_Error_line _ _ _ Hp (cut_CR _ Hs)) as (p' & E & Hp').
  exists p'. now rewrite E, E2.
Qed.

(** X3.  Every [int] written by [WriteInteger] is read back by [Parse]
    as the same number, with exactly its frame consumed, on every
    segmentation of the stream. *)
Lemma roundtrip_Integer (p : Reader) (n : Z) (rest : string) :
  pending p = WriteInteger n ++ rest -> minInt64 <= n <= maxInt64 ->
  exists p', Parse p = Some (Ok (mkRESPValue Integer "" n "" []), p')
             /\ pending p' = rest.
Proof.
  intros Hp Hn. unfold WriteInteger in Hp. cbn [String.append] in Hp.
  rewrite str_app_assoc in Hp.
  destruct (line_CRLF (Itoa n) rest) as [E1 E2]. rewrite E1 in Hp.
  apply (Parse_Integer_line _ _ _ n Hp (cut_CR _ (Itoa_no_LF n))).
  rewrite E2. now apply Atoi_Itoa.
Qed.

(** [parseBulkString] once its length line is read. *)
Lemma parseBulkString_length (p : Reader) (l rest : string) (n : Z) :
  pending p = l ++ String LF rest -> cut LF l = None ->
  Atoi (TrimSuffix (l ++ String LF "") CRLF) = inl n ->
  exists p1, pending p1 = rest /\
    parseBulkString p =
      if n =? -1 then (Ok (mkRESPValue BulkString "" 0 "" []), p1)
      else if n <? 0 then (Panic "makeslice: len out of range", p1)
      else
        match Read (Z.to_nat n) p1 with
        | (inr err, p2) => (Err err, p2)
        | (inl data, p2) =>
            (Ok (mkRESPValue BulkString "" 0
                   (data ++ zeros (Z.to_nat n - String.length data)) []),
             snd (ReadByte (snd (ReadByte p2))))
        end.
Proof.
  intros Hp Hl Hn. destruct (readLine_line _ _ _ Hp Hl) as (p1 & E & Hp1).
  exists p1. split; [exact Hp1|]. unfold parseBulkString. now rewrite E, Hn.
Qed.

(** What is already in the buffer is read from there. *)
Lemma ReadString_buffered (d : ascii) (l r : string) (conn : list string) :
  cut d l = None ->
  ReadString d {| buf := l ++ String d r; rd := conn |}
  = (inl (l ++ String d ""), {| buf := r; rd := conn |}).
Proof.
  intros Hl. unfold ReadString. rewrite ReadString_loop_eq. cbn [buf rd].
  now rewrite (cut_line _ _ _ Hl).
Qed.

Lemma Read_buffered (a b : string) (conn : list string) :
  Read (String.length a) {| buf := a ++ b; rd := conn |}
  = (inl a, {| buf := b; rd := conn |}).
Proof.
  destruct a as [|c a]; [reflexivity|].
  change (String.length (String c a)) with (S (String.length a)).
  change (String c a ++ b) with (String c (a ++ b)).
  cbn [Read buf rd str_take str_drop].
  now rewrite str_take_app, str_drop_app.
Qed.

(** The round trip of a bulk string holds when the whole frame is in the
    buffer by the time its length line is read. *)
Lemma roundtrip_BulkString_buffered (s more : string) (conn : list string) :
  Z.of_nat (String.length s) <= maxInt64 ->
  Parse {| buf := WriteBulkString s ++ more; rd := conn |}
  = Some (Ok (mkRESPValue BulkString "" 0 s []), {| buf := more; rd := conn |}).
Proof.
  intros Hlen. unfold Parse, WriteBulkString. cbn [Parse_fuel].
  cbn [String.append ReadByte buf rd]. decide_tag.
  set (n := Z.of_nat (String.length s)) in *.
  destruct (line_CRLF (Itoa n) (s ++ CRLF ++ more)) as [E1 E2].
  rewrite !str_app_assoc, E1. unfold parseBulkString, readLine.
  rewrite ReadString_buffered by apply cut_CR, Itoa_no_LF.
  rewrite E2, Atoi_Itoa by (unfold minInt64, n; lia).
  replace (n =? -1) with false by (symmetry; apply Z.eqb_neq; lia).
  replace (n <? 0) with false by (symmetry; apply Z.ltb_ge; lia).
  unfold n. rewrite Nat2Z.id, Read_buffered, Nat.sub_diag. cbn [zeros str_repeat].
  now rewrite str_app_nil_r.
Qed.

Lemma str_take_ge (n : nat) (s : string) :
  (String.length s <= n)%nat -> str_take n s = s.
Proof.
  revert s; induction n as [|n IH]; intros [|c s]; cbn [str_take String.length];
    intros H; try reflexivity; [lia|].
  rewrite IH by lia. reflexivity.
Qed.

Lemma str_drop_ge (n : nat) (s : string) :
  (String.length s <= n)%nat -> str_drop n s = "".
Proof.
  revert s; induction n as [|n IH]; intros [|c s]; cbn [str_drop String.length];
    intros H; try reflexivity; [lia|].
  apply IH. lia.
Qed.

(** A segment no longer than the buffer is in the buffer after the first
    read of the connection. *)
Lemma Parse_first_segment (c : ascii) (w : string) :
  (String.length (String c w) <= defaultBufSize)%nat ->
  Parse (NewReader [String c w]) = Parse {| buf := String c w; rd := [] |}.
Proof.
  intros Hlen. unfold Parse, NewReader, pending. cbn [buf rd conn_bytes].
  cbn [String.append]. cbn [Parse_fuel].
  replace (ReadByte {| buf := ""; rd := [String c w] |})
    with (ReadByte {| buf := String c w; rd := [] |}); [reflexivity|].
  unfold ReadByte. cbn [buf rd conn_Read].
  rewrite str_take_ge, str_drop_ge by exact Hlen. reflexivity.
Qed.

(** X26.  A bulk string whose frame comes in one segment no longer than
    the buffer of the reader is read back by [Parse] as the same bytes,
    whatever the bytes are, with the whole frame consumed. *)
Lemma roundtrip_BulkString_small (s : string) :
  (String.length (WriteBulkString s) <= defaultBufSize)%nat ->
  Parse (NewReader [WriteBulkString s])
  = Some (Ok (mkRESPValue BulkString "" 0 s []), {| buf := ""; rd := [] |}).
Proof.
  intros Hlen.
  assert (Hs : Z.of_nat (String.length s) <= maxInt64).
  { unfold WriteBulkString in Hlen. rewrite !str_app_length in Hlen.
    unfold defaultBufSize, maxInt64 in *. lia. }
  pose proof (roundtrip_BulkString_buffered s "" [] Hs) as H.
  rewrite str_app_nil_r in H. rewrite <- H.
  apply (Parse_first_segment "$"). exact Hlen.
Qed.

Lemma str_app_inj_tail (a b : string) (c : ascii) :
  a ++ String c "" = b ++ String c "" -> a = b.
Proof.
  revert b; induction a as [|x a IH]; intros [|y b]; cbn [String.append];
    intros H; try reflexivity.
  - injection H as _ H. now destruct b.
  - injection H as _ H. now destruct a.
  - injection H as -> H. now rewrite (IH _ H).
Qed.

(** X5.  A stream that ends before the first line of a frame does,
    whichever the type of the frame, fails to decode with [io.EOF], and
    everything that was pending is consumed. *)
Lemma Parse_line_cut_short (p : Reader) (c : ascii) (l : string) :
  pending p = String c l -> cut LF l = None ->
  In c [Array; BulkString; SimpleString; Error; Integer] ->
  Parse p = Some (Err io_EOF, {| buf := ""; rd := [] |}).
Proof.
  intros Hp Hl Hc. destruct (Parse_tag _ _ _ Hp) as (p1 & _ & Hp1 & ->).
  rewrite <- Hp1 in Hl. pose proof (readLine_EOF _ Hl) as E.
  cbn [In] in Hc.
  destruct Hc as [<-|[<-|[<-|[<-|[<-|[]]]]]]; decide_tag;
    unfold parseArray, parseBulkString, parseSimpleString, parseError,
      parseInteger; now rewrite E.
Qed.

(** ** Decoding terminates

    The fuel that [Parse] starts with is never used up: every call ends
    in a value, an error or a panic. *)

Lemma ReadByte_length (p : Reader) :
  match ReadByte p with
  | (inl _, p') => S (String.length (pending p')) = String.length (pending p)
  | (inr _, p') => (String.length (pending p') <= String.length (pending p))%nat
  end.
Proof.
  pose proof (ReadByte_spec p) as H. destruct (pending p) as [|c rest] eqn:E.
  - rewrite H, E. reflexivity.
  - destruct H as (p' & -> & ->). reflexivity.
Qed.

Lemma readLine_length (p : Reader) :
  (String.length (pending (snd (readLine p))) <= String.length (pending p))%nat.
Proof.
  destruct (cut LF (pending p)) as [[frag rest]|] eqn:E.
  - apply cut_Some in E as (l & -> & Hl & E). rewrite str_app_assoc in E.
    destruct (readLine_line _ _ _ E Hl) as (p' & -> & Hp').
    cbn [snd]. rewrite Hp', E, !str_app_length. lia.
  - rewrite (readLine_EOF _ E). cbn. lia.
Qed.

Lemma Read_length (n : nat) (p : Reader) :
  (String.length (pending (snd (Read n p))) <= String.length (pending p))%nat.
Proof.
  destruct p as [bf conn]. unfold Read, pending.
  destruct n as [|n]; [reflexivity|]. cbn [buf rd].
  destruct bf as [|c bf].
  - destruct (defaultBufSize <=? S n)%nat.
    + destruct (conn_Read (S n) conn) as [[data conn']|] eqn:E; [|reflexivity].
      apply conn_Read_Some in E as (<- & _ & _); [|lia].
      cbn [snd buf rd String.append]. rewrite str_app_length. lia.
    + destruct (conn_Read defaultBufSize conn) as [[data conn']|] eqn:E;
        [|reflexivity].
      apply conn_Read_Some in E as (<- & _ & _); [|unfold defaultBufSize; lia].
      cbn [snd buf rd String.append].
      pose proof (f_equal String.length (str_take_drop (S n) data)) as Htd.
      rewrite str_app_length in Htd. rewrite !str_app_length. lia.
  - cbn [snd buf rd].
    pose proof (f_equal String.length (str_take_drop (S n) (String c bf)))
      as Htd.
    rewrite str_app_length in Htd. rewrite !str_app_length. lia.
Qed.

Lemma line_parsers_length (p : Reader) :
  (String.length (pending (snd (parseSimpleString p))) <= String.length (pending p)
   /\ String.length (pending (snd (parseError p))) <= String.length (pending p)
   /\ String.length (pending (snd (parseInteger p))) <= String.length (pending p))%nat.
Proof.
  pose proof (readLine_length p) as H.
  unfold parseSimpleString, parseError, parseInteger.
  destruct (readLine p) as [[line|err] p']; cbn [snd] in *;
    [destruct (Atoi line)|]; auto.
Qed.

Lemma parseBulkString_length_le (p : Reader) :
  (String.length (pending (snd (parseBulkString p))) <= String.length (pending p))%nat.
Proof.
  pose proof (readLine_length p) as H. unfold parseBulkString.
  destruct (readLine p) as [[line|err] p1]; cbn [snd] in *; [|exact H].
  destruct (Atoi line) as [n|]; [|exact H].
  destruct (n =? -1); [exact H|]. destruct (n <? 0); [exact H|].
  pose proof (Read_length (Z.to_nat n) p1) as H1.
  destruct (Read (Z.to_nat n) p1) as [[data|err] p2]; cbn [snd] in *; [|lia].
  pose proof (ReadByte_length p2) as H2.
  pose proof (ReadByte_length (snd (ReadByte p2))) as H3.
  destruct (ReadByte p2) as [[?|?] p3]; cbn [snd] in *;
    destruct (ReadByte p3) as [[?|?] p4]; cbn [snd] in *; lia.
Qed.

(** The array loop, given that the calls it makes end and consume. *)
Lemma parseArray_loop_total
    (Parse : Reader -> option (outcome RESPValue * Reader)) (bound : nat) :
  (forall q, (String.length (pending q) < bound)%nat ->
     exists o q', Parse q = Some (o, q') /\
       (String.length (pending q') <= String.length (pending q))%nat /\
       (forall v, o = Ok v ->
          (String.length (pending q') < String.length (pending q))%nat)) ->
  forall fuel i count array q,
    (String.length (pending q) < fuel)%nat ->
    (String.length (pending q) < bound)%nat ->
    exists o q', parseArray_loop Parse fuel i count array q = Some (o, q') /\
      (String.length (pending q') <= String.length (pending q))%nat.
Proof.
  intros HP. induction fuel as [|fuel IH]; intros i count array q Hf Hb; [lia|].
  cbn [parseArray_loop]. destruct (i <? count); [|eauto].
  destruct (HP q Hb) as (o & q' & -> & Hle & Hlt).
  destruct o as [val|err|msg]; [|eauto..].
  specialize (Hlt val eq_refl).
  destruct (IH (i + 1) count (<[Z.to_nat i := val]> array) q') as (o & q'' & -> & H);
    [lia..|].
  exists o, q''. split; [reflexivity | lia].
Qed.

Lemma Parse_fuel_total (fuel : nat) :
  forall p, (String.length (pending p) < fuel)%nat ->
    exists o p', Parse_fuel fuel p = Some (o, p') /\
      (String.length (pending p') <= String.length (pending p))%nat /\
      (forall v, o = Ok v ->
         (String.length (pending p') < String.length (pending p))%nat).
Proof.
  induction fuel as [|fuel IH]; intros p Hf; [lia|].
  cbn [Parse_fuel]. pose proof (ReadByte_length p) as Hb.
  destruct (ReadByte p) as [[c|err] p1].
  2: { exists (Err err), p1. repeat split; [exact Hb | discriminate]. }
  assert (Hf1 : (String.length (pending p1) < fuel)%nat) by lia.
  destruct (Ascii.eqb c CR || Ascii.eqb c LF).
  { destruct (IH p1 Hf1) as (o & p' & -> & Hle & _).
    exists o, p'. repeat split; intros; lia. }
  assert (Hdone : forall r : outcome RESPValue * Reader,
    (String.length (pending (snd r)) <= String.length (pending p1))%nat ->
    exists o p', Some r = Some (o, p') /\
      (String.length (pending p') <= String.length (pending p))%nat /\
      (forall v, o = Ok v ->
         (String.length (pending p') < String.length (pending p))%nat)).
  { intros [o p'] H. cbn [snd] in H. exists o, p'. repeat split; intros; lia. }
  destruct (Ascii.eqb c Array).
  { unfold parseArray. pose proof (readLine_length p1) as Hl.
    destruct (readLine p1) as [[line|err] p2]; cbn [snd] in Hl;
      [|now apply Hdone].
    destruct (Atoi line) as [count|]; [|now apply Hdone].
    destruct (count <? 0); [now apply Hdone|].
    destruct (parseArray_loop_total (Parse_fuel fuel) fuel IH fuel 0 count
                (replicate (Z.to_nat count) RESPValue_zero) p2)
      as (o & p' & -> & H); [lia..|].
    apply Hdone. cbn [snd]. lia. }
  destruct (line_parsers_length p1) as (Hs & He & Hi).
  destruct (Ascii.eqb c BulkString);
    [apply Hdone, parseBulkString_length_le|].
  destruct (Ascii.eqb c SimpleString); [now apply Hdone|].
  destruct (Ascii.eqb c Error); [now apply Hdone|].
  destruct (Ascii.eqb c Integer); [now apply Hdone|].
  now apply Hdone.
Qed.

(** [Parse] is total: it yields a value, an error or a panic, and a value
    only after consuming a byte or more. *)
Lemma Parse_total (p : Reader) :
  exists o p', Parse p = Some (o, p') /\
    (forall v, o = Ok v ->
       (String.length (pending p') < String.length (pending p))%nat).
Proof.
  destruct (Parse_fuel_total (S (String.length (pending p))) p) as
    (o & p' & E & _ & H); [lia|].
  exists o, p'. now split.
Qed.

(** ** The claims on the codec *)

(** C8, as the code has it.  [readLine] consumes the bytes up to and
    including the first ['\n'] and strips a final ["\r\n"] from them; a
    line that ends in a bare ['\n'] is returned with the ['\n'] in it. *)
Theorem readLine_strips_CRLF_only (p : Reader) (l rest : string) :
  pending p = l ++ String LF rest -> cut LF l = None ->
  exists line p',
    readLine p = (inl line, p') /\ pending p' = rest /\
    (forall l0, l = l0 ++ String CR "" -> line = l0) /\
    ((forall l0, l <> l0 ++ String CR "") -> line = l ++ String LF "").
Proof.
  intros Hp Hl. destruct (readLine_line _ _ _ Hp Hl) as (p' & E & Hp').
  eexists _, p'. split; [exact E|]. split; [exact Hp'|]. split.
  - intros l0 ->. apply line_CRLF; exact "".
  - intros Hno. apply TrimSuffix_other. intros x Hx.
    apply (Hno x). apply (str_app_inj_tail _ _ LF).
    rewrite Hx. unfold CRLF. now rewrite str_app_assoc.
Qed.

Lemma readLine_strips_CRLF_only_witness :
  exists line p',
    readLine (NewReader ["PING" ++ CRLF ++ "+"]) = (inl line, p') /\
    pending p' = "+" /\
    (forall l0, "PING" ++ String CR "" = l0 ++ String CR "" -> line = l0) /\
    ((forall l0, "PING" ++ String CR "" <> l0 ++ String CR "") ->
     line = ("PING" ++ String CR "") ++ String LF "").
Proof.
  apply (readLine_strips_CRLF_only (NewReader ["PING" ++ CRLF ++ "+"])
           ("PING" ++ String CR "") "+"); reflexivity.
Defined.

(** C8, as the specification states it, fails on a line that ends in a
    bare ['\n']: the content returned still holds the ['\n']. *)
Lemma readLine_keeps_bare_LF :
  ~ (forall line p',
       readLine (NewReader ["abc" ++ String LF "rest"]) = (inl line, p') ->
       cut LF line = None).
Proof.
  intros H. specialize (H _ _ eq_refl). discriminate H.
Qed.

(** C7, as the code has it.  A bulk-string frame of declared length -1
    decodes to a [BulkString] value with an empty payload, and no byte
    after the length line is consumed.  [RESPValue] has no presence flag:
    the value is the one that a frame of declared length 0 decodes to
    (which consumes the two bytes after its length line as well). *)
Theorem Parse_null_BulkString (p : Reader) (l rest : string) :
  pending p = String BulkString (l ++ String LF rest) -> cut LF l = None ->
  Atoi (TrimSuffix (l ++ String LF "") CRLF) = inl (-1) ->
  (exists p', Parse p = Some (Ok (mkRESPValue BulkString "" 0 "" []), p')
              /\ pending p' = rest) /\
  (forall (q : Reader) (l0 rest0 : string),
     pending q = String BulkString (l0 ++ String LF rest0) ->
     cut LF l0 = None ->
     Atoi (TrimSuffix (l0 ++ String LF "") CRLF) = inl 0 ->
     exists q', Parse q = Some (Ok (mkRESPValue BulkString "" 0 "" []), q')
                /\ pending q' = str_drop 2 rest0).
Proof.
  intros Hp Hl Hn. split.
  - destruct (Parse_tag _ _ _ Hp) as (p1 & _ & Hp1 & ->). decide_tag.
    destruct (parseBulkString_length _ _ _ _ Hp1 Hl Hn) as (p' & Hp' & ->).
    exists p'. now split.
  - clear. intros q l0 rest0 Hq Hl0 Hn0.
    destruct (Parse_tag _ _ _ Hq) as (q1 & _ & Hq1 & ->). decide_tag.
    destruct (parseBulkString_length _ _ _ _ Hq1 Hl0 Hn0) as (q' & Hq' & ->).
    cbn [Z.eqb Z.ltb Z.compare Z.to_nat Read].
    eexists. split; [reflexivity|].
    rewrite !ReadByte_pending, Hq'. now destruct rest0 as [|? [|? ?]].
Qed.

Lemma Parse_null_BulkString_witness :
  (exists p', Parse (NewReader [WriteNullBulkString ++ "+OK"])
              = Some (Ok (mkRESPValue BulkString "" 0 "" []), p')
              /\ pending p' = "+OK") /\
  (forall (q : Reader) (l0 rest0 : string),
     pending q = String BulkString (l0 ++ String LF rest0) ->
     cut LF l0 = None ->
     Atoi (TrimSuffix (l0 ++ String LF "") CRLF) = inl 0 ->
     exists q', Parse q = Some (Ok (mkRESPValue BulkString "" 0 "" []), q')
                /\ pending q' = str_drop 2 rest0).
Proof.
  apply (Parse_null_BulkString (NewReader [WriteNullBulkString ++ "+OK"])
           ("-1" ++ String CR "") "+OK"); reflexivity.
Defined.

(** C7, as the specification states it, fails: the null bulk string and
    the empty bulk string decode to one and the same value. *)
Lemma null_BulkString_is_empty_BulkString :
  ~ (forall vnull pnull vempty pempty,
       Parse (NewReader [WriteNullBulkString]) = Some (Ok vnull, pnull) ->
       Parse (NewReader [WriteBulkString ""]) = Some (Ok vempty, pempty) ->
       vnull <> vempty).
Proof.
  intros H. exact (H _ _ _ _ eq_refl eq_refl eq_refl).
Qed.

(** C10.  An array frame whose count line parses as a negative integer
    makes [Parse] panic in [make]: the call yields neither a value nor an
    error. *)
Theorem Parse_negative_Array_count_panics
    (p : Reader) (l rest : string) (count : Z) :
  pending p = String Array (l ++ String LF rest) -> cut LF l = None ->
  Atoi (TrimSuffix (l ++ String LF "") CRLF) = inl count -> count < 0 ->
  exists msg p',
    Parse p = Some (Panic msg, p') /\
    (forall v, Parse p <> Some (Ok v, p')) /\
    (forall e, Parse p <> Some (Err e, p')).
Proof.
  intros Hp Hl Hn Hneg. destruct (Parse_tag _ _ _ Hp) as (p1 & _ & Hp1 & ->).
  decide_tag. destruct (readLine_line _ _ _ Hp1 Hl) as (p' & E & _).
  unfold parseArray. rewrite E, Hn.
  replace (count <? 0) with true by (symmetry; apply Z.ltb_lt; exact Hneg).
  eexists _, p'. repeat split; intros; discriminate.
Qed.

Lemma Parse_negative_Array_count_panics_witness :
  exists msg p',
    Parse (NewReader ["*-1" ++ CRLF]) = Some (Panic msg, p') /\
    (forall v, Parse (NewReader ["*-1" ++ CRLF]) <> Some (Ok v, p')) /\
    (forall e, Parse (NewReader ["*-1" ++ CRLF]) <> Some (Err e, p')).
Proof.
  apply (Parse_negative_Array_count_panics (NewReader ["*-1" ++ CRLF])
           ("-1" ++ String CR "") "" (-1)); [reflexivity .. | lia].
Defined.

(** C9 fails on the code.  A stream that ends inside the payload of a
    bulk string, or before its two-byte terminator, decodes with success:
    the short [Read] is taken for a full one, the payload is filled up
    with zero bytes, and the failures of the two [ReadByte] calls are
    dropped. *)
Theorem Parse_truncated_BulkString_succeeds :
  Parse (NewReader ["$5" ++ CRLF ++ "ab"])
  = Some (Ok (mkRESPValue BulkString "" 0 ("ab" ++ zeros 3) []),
          {| buf := ""; rd := [] |}) /\
  Parse (NewReader ["$2" ++ CRLF ++ "ab"])
  = Some (Ok (mkRESPValue BulkString "" 0 "ab" []), {| buf := ""; rd := [] |}) /\
  Parse (NewReader ["$0" ++ CRLF])
  = Some (Ok (mkRESPValue BulkString "" 0 "" []), {| buf := ""; rd := [] |}).
Proof. repeat split; vm_compute; reflexivity. Qed.

(** C2 fails on the code for bulk strings.  The frame of a 4090-byte
    payload, handed over in one piece, comes back with its last byte
    replaced by a zero byte, and the parser stops one byte short of the
    end of the frame: the buffer held 4089 bytes of the payload when
    [Read] was called.  A short frame does the same when the connection
    delivers it in two segments. *)
Theorem Parse_WriteBulkString_short_Read :
  (exists v p',
     Parse (NewReader [WriteBulkString (str_repeat "a" 4090)]) = Some (Ok v, p')
     /\ Bulk v = str_repeat "a" 4089 ++ String NUL ""
     /\ Bulk v <> str_repeat "a" 4090
     /\ pending p' = String LF "") /\
  (exists v p',
     Parse (NewReader ["$2" ++ CRLF ++ "a"; "b" ++ CRLF]) = Some (Ok v, p')
     /\ Bulk v = String "a" (String NUL "")
     /\ pending p' = String LF "").
Proof.
  split.
  - assert (E : exists v p',
      Parse (NewReader [WriteBulkString (str_repeat "a" 4090)]) = Some (Ok v, p')
      /\ Bulk v = str_repeat "a" 4089 ++ String NUL ""
      /\ String.eqb (Bulk v) (str_repeat "a" 4090) = false
      /\ pending p' = String LF "").
    { eexists _, _. split; [vm_compute; reflexivity|].
      repeat split; vm_compute; reflexivity. }
    destruct E as (v & p' & E & Hb & Hne & Hp'). exists v, p'.
    repeat split; auto. now apply String.eqb_neq.
  - eexists _, _. split; [vm_compute; reflexivity|]. now split.
Qed.

(** ** The store *)

Lemma WriteBulkString_not_Error (s msg : string) :
  WriteBulkString s <> WriteError msg.
Proof. unfold WriteBulkString, WriteError. cbn [String.append]. discriminate. Qed.

Lemma WriteError_not_OK (msg : string) :
  WriteError msg <> WriteSimpleString "OK".
Proof. unfold WriteError, WriteSimpleString. cbn [String.append]. discriminate. Qed.

Lemma WriteBulkString_not_null (s : string) :
  WriteBulkString s <> WriteNullBulkString.
Proof.
  unfold WriteBulkString, WriteNullBulkString, Itoa.
  destruct (Z.of_nat (String.length s)) as [|p|p] eqn:E; [discriminate| |lia].
  cbn [Z.to_int NilZero.string_of_int].
  destruct (string_of_uint_first _ (DecimalPos.Unsigned.to_uint_nonnil p))
    as (c & w & Ew & Hm & _).
  replace (NilZero.string_of_uint (Pos.to_uint p)) with (String c w)
    by (rewrite <- Ew; now destruct (Pos.to_uint p)).
  cbn [String.append]. intros [= -> _]. discriminate Hm.
Qed.

Lemma cleanupExpired_lookup (now : Time) (key k : string)
    (data : gmap string KeyValue) :
  cleanupExpired now key data !! k =
    if decide (key = k) then
      match data !! k with
      | Some kv =>
          match ExpiresAt kv with
          | Some t => if t <? now then None else Some kv
          | None => Some kv
          end
      | None => None
      end
    else data !! k.
Proof.
  unfold cleanupExpired, isExpired, Time_After. destruct (decide (key = k)) as [->|Hk].
  - destruct (data !! k) as [[v [t|]]|] eqn:E; cbn [ExpiresAt]; auto.
    destruct (t <? now); [apply lookup_delete_eq | exact E].
  - destruct (data !! key) as [[v [t|]]|]; cbn [ExpiresAt]; auto.
    destruct (t <? now); [now apply lookup_delete_ne | reflexivity].
Qed.

(** The parts of the TTL contract that hold at every instant. *)
Lemma TTLHandler_absent (name key : string) (clock : Clock)
    (data : gmap string KeyValue) :
  data !! key = None ->
  TTLHandler_Handle [name; key] clock data = (WriteInteger (-2), data).
Proof.
  intros H. unfold TTLHandler_Handle. cbn [length Nat.eqb negb nth].
  unfold cleanupExpired, isExpired. now rewrite H, H.
Qed.

Lemma TTLHandler_no_expiry (name key v : string) (clock : Clock)
    (data : gmap string KeyValue) :
  data !! key = Some (mkKeyValue v None) ->
  TTLHandler_Handle [name; key] clock data = (WriteInteger (-1), data).
Proof.
  intros H. unfold TTLHandler_Handle. cbn [length Nat.eqb negb nth].
  unfold cleanupExpired, isExpired. rewrite H. cbn [ExpiresAt]. now rewrite H.
Qed.

Lemma TTLHandler_expired (name key v : string) (t : Time) (clock : Clock)
    (data : gmap string KeyValue) :
  data !! key = Some (mkKeyValue v (Some t)) ->
  t <= clock 1%nat ->
  TTLHandler_Handle [name; key] clock data
  = (WriteInteger (-2), delete key data).
Proof.
  intros H Ht. unfold TTLHandler_Handle. cbn [length Nat.eqb negb nth].
  unfold cleanupExpired, isExpired, Time_After. rewrite H. cbn [ExpiresAt].
  destruct (t <? clock 0%nat).
  - now rewrite lookup_delete_eq.
  - rewrite H. cbn [ExpiresAt]. unfold Until, minInt64, maxInt64.
    now replace (_ <=? 0) with true by (symmetry; apply Z.leb_le; lia).
Qed.

Lemma TTLHandler_remaining (name key v : string) (t : Time) (clock : Clock)
    (data : gmap string KeyValue) :
  data !! key = Some (mkKeyValue v (Some t)) ->
  clock 0%nat <= clock 1%nat < t ->
  TTLHandler_Handle [name; key] clock data
  = (WriteInteger (int_of_float64 (Seconds (Until (clock 1%nat) t))), data).
Proof.
  intros H Ht. unfold TTLHandler_Handle. cbn [length Nat.eqb negb nth].
  unfold cleanupExpired, isExpired, Time_After. rewrite H. cbn [ExpiresAt].
  replace (t <? clock 0%nat) with false by (symmetry; apply Z.ltb_ge; lia).
  rewrite H. cbn [ExpiresAt].
  replace (Until (clock 1%nat) t <=? 0) with false; [reflexivity|].
  symmetry; apply Z.leb_gt. unfold Until, minInt64, maxInt64. lia.
Qed.

(** Whole seconds are what TTL replies while the sum in
    [Duration.Seconds] is exact enough, as in these readings. *)
Lemma TTLHandler_truncates_examples :
  int_of_float64 (Seconds 999999999) = 0 /\
  int_of_float64 (Seconds 1999999999) = 1 /\
  int_of_float64 (Seconds 99999999999) = 99 /\
  int_of_float64 (Seconds (2 ^ 24 * Second - 1)) = 2 ^ 24 - 1.
Proof. repeat split. Qed.

(** C1 fails on the code in its last case.  SET k v EX 16777218 at the
    instant 0 and TTL k a second and a nanosecond later:
    16777216.999999999 seconds are left, [Duration.Seconds] rounds the
    sum of the whole seconds and the fraction to the [float64] 16777217,
    and TTL replies 16777217 where the whole number of seconds left is
    16777216. *)
Theorem TTLHandler_rounds_up :
  let set := SetHandler_Handle ToUpperASCII ["SET"; "k"; "v"; "EX"; "16777218"]
               (fun _ => 0) ∅ in
  let data := snd set in
  let clock : Clock := fun n => 1000000000 + Z.of_nat n in
  let remaining := Until (clock 1%nat) (16777218 * Second) in
  set = (WriteSimpleString "OK",
         <["k" := mkKeyValue "v" (Some (16777218 * Second))]> ∅) /\
  remaining = 16777216999999999 /\
  Z.quot remaining Second = 16777216 /\
  TTLHandler_Handle ["TTL"; "k"] clock data = (WriteInteger 16777217, data) /\
  WriteInteger 16777217 <> WriteInteger (Z.quot remaining Second).
Proof.
  cbv zeta. split; [reflexivity|]. split; [reflexivity|]. split; [reflexivity|].
  split; [|discriminate].
  rewrite (TTLHandler_remaining "TTL" "k" "v" (16777218 * Second));
    [ | apply lookup_insert_eq
      | split; [apply Z.leb_le | apply Z.ltb_lt]; reflexivity].
  f_equal.
Qed.

(** The parts of the expiry contract that hold: past the expiry instant,
    GET replies the null bulk string and removes the entry. *)
Lemma GetHandler_expired (name key v : string) (t : Time) (clock : Clock)
    (data : gmap string KeyValue) :
  data !! key = Some (mkKeyValue v (Some t)) ->
  t < clock 0%nat ->
  GetHandler_Handle [name; key] clock data
  = (WriteNullBulkString, delete key data).
Proof.
  intros H Ht. unfold GetHandler_Handle. cbn [length Nat.eqb negb nth].
  unfold cleanupExpired, isExpired, Time_After. rewrite H. cbn [ExpiresAt].
  replace (t <? clock 0%nat) with true by (symmetry; apply Z.ltb_lt; lia).
  now rewrite lookup_delete_eq.
Qed.

(** C6 fails on the code at the expiry instant itself.  [isExpired] asks
    for [time.Now().After(expiresAt)], so at the instant of expiry GET
    still replies the value and keeps the entry, while TTL, which tests
    [remaining <= 0], replies -2 at the same instant. *)
Theorem GetHandler_at_expiry_instant
    (name key v : string) (t : Time) (data0 : gmap string KeyValue) :
  let data := <[key := mkKeyValue v (Some t)]> data0 in
  let clock : Clock := fun _ => t in
  GetHandler_Handle [name; key] clock data = (WriteBulkString v, data) /\
  WriteBulkString v <> WriteNullBulkString /\
  fst (TTLHandler_Handle [name; key] clock data) = WriteInteger (-2).
Proof.
  cbv zeta. split; [|split; [apply WriteBulkString_not_null|]].
  - unfold GetHandler_Handle. cbn [length Nat.eqb negb nth].
    unfold cleanupExpired, isExpired, Time_After.
    rewrite lookup_insert_eq. cbn [ExpiresAt]. rewrite Z.ltb_irrefl.
    now rewrite lookup_insert_eq.
  - rewrite (TTLHandler_expired name key v t); [reflexivity| |lia].
    apply lookup_insert_eq.
Qed.

(** [HandleCommand] hands the whole command to the handler registered
    under its upper-cased name. *)
Lemma HandleCommand_dispatch (ToUpper : string -> string) (name : string)
    (args : list string) (clock : Clock) (data : gmap string KeyValue)
    (h : CommandHandler) :
  handlers !! ToUpper name = Some h ->
  HandleCommand ToUpper (name :: args) clock data
  = Handle ToUpper h (name :: args) clock data.
Proof. intros H. unfold HandleCommand. now rewrite H. Qed.

Lemma HandleCommand_ECHO (ToUpper : string -> string) (name : string)
    (args : list string) (clock : Clock) (data : gmap string KeyValue) :
  ToUpper name = "ECHO" ->
  HandleCommand ToUpper (name :: args) clock data
  = (EchoHandler_Handle (name :: args), data).
Proof.
  intros H. apply (HandleCommand_dispatch _ _ _ _ _ EchoHandler).
  now rewrite H.
Qed.

(** ECHO with no argument, and with one. *)
Lemma EchoHandler_no_argument (name : string) :
  EchoHandler_Handle [] = WriteError "wrong number of arguments for 'echo' command"
  /\ EchoHandler_Handle [name]
     = WriteError "wrong number of arguments for 'echo' command".
Proof. now split. Qed.

Lemma EchoHandler_one_argument (name message : string) :
  EchoHandler_Handle [name; message] = WriteBulkString message.
Proof. reflexivity. Qed.

(** C3 fails on the code for two arguments or more.  The handler tests
    [len(args) < 2] only: with more than one argument after the name it
    replies the first of them as a bulk string, not the arity error that
    the GET and TTL handlers give ([len(args) != 2]). *)
Theorem EchoHandler_extra_arguments
    (name message extra : string) (more : list string) :
  EchoHandler_Handle (name :: message :: extra :: more)
  = WriteBulkString message /\
  EchoHandler_Handle (name :: message :: extra :: more)
  <> WriteError "wrong number of arguments for 'echo' command" /\
  (forall clock data,
     fst (GetHandler_Handle (name :: message :: extra :: more) clock data)
     = WriteError "wrong number of arguments for 'get' command" /\
     fst (TTLHandler_Handle (name :: message :: extra :: more) clock data)
     = WriteError "wrong number of arguments for 'ttl' command").
Proof.
  split; [reflexivity|]. split; [apply WriteBulkString_not_Error|].
  intros clock data. now split.
Qed.

(** ** SET *)

(** Every way out of the option loop other than its end is an error
    reply. *)
Lemma SetHandler_options_error (ToUpper : string -> string)
    (opts : list string) :
  (forall clock n e r,
     SetHandler_options ToUpper opts clock n e = inl r ->
     exists msg, r = WriteError msg) /\
  (forall opt clock n e r,
     SetHandler_options ToUpper (opt :: opts) clock n e = inl r ->
     exists msg, r = WriteError msg).
Proof.
  induction opts as [|val opts [IH1 IH2]].
  - split; [discriminate|]. intros opt clock n e r [= <-]. eauto.
  - split; [exact (IH2 val)|]. intros opt clock n e r.
    cbn [SetHandler_options].
    destruct (String.eqb (ToUpper opt) "EX");
      [|destruct (String.eqb (ToUpper opt) "PX")];
      try (destruct (Atoi val) as [z|]; [destruct (z <=? 0)|]);
      try (intros [= <-]; eauto); apply IH1.
Qed.

Lemma SetHandler_success (ToUpper : string -> string) (args : list string)
    (clock : Clock) (data data' : gmap string KeyValue) :
  SetHandler_Handle ToUpper args clock data = (WriteSimpleString "OK", data') ->
  exists e,
    SetHandler_options ToUpper (drop 3 args) clock 0 None = inr e /\
    data' = <[nth 1 args "" := mkKeyValue (nth 2 args "") e]> data.
Proof.
  unfold SetHandler_Handle. destruct (length args <? 3)%nat.
  - intros H. discriminate H.
  - destruct (SetHandler_options ToUpper (drop 3 args) clock 0 None)
      as [r|e] eqn:E.
    + intros [= H _]. apply SetHandler_options_error in E as [msg ->].
      now destruct (WriteError_not_OK _ H).
    + intros [= <-]. now exists e.
Qed.

(** SET touches the entry of its key only. *)
Lemma SetHandler_frame (ToUpper : string -> string) (args : list string)
    (clock : Clock) (data : gmap string KeyValue) (k : string) :
  nth 1 args "" <> k ->
  snd (SetHandler_Handle ToUpper args clock data) !! k = data !! k.
Proof.
  intros Hk. unfold SetHandler_Handle. destruct (length args <? 3)%nat;
    [reflexivity|].
  destruct (SetHandler_options ToUpper (drop 3 args) clock 0 None);
    [reflexivity|].
  cbn [snd]. now apply lookup_insert_ne.
Qed.

(** C4.  A SET that succeeds puts its value and the expiry of its own
    options in the place of whatever the key held, whatever the store;
    SET k v1 EX 100 followed by SET k v2 leaves k without an expiry, so
    that TTL k replies -1; and both leave every other key as it was. *)
Theorem SetHandler_overwrites (ToUpper : string -> string)
    (n1 n2 n3 k v1 v2 : string) (c1 c2 c3 : Clock)
    (data : gmap string KeyValue) :
  ToUpper "EX" = "EX" ->
  let r1 := SetHandler_Handle ToUpper [n1; k; v1; "EX"; "100"] c1 data in
  let r2 := SetHandler_Handle ToUpper [n2; k; v2] c2 (snd r1) in
  (forall args clock d d',
     SetHandler_Handle ToUpper args clock d = (WriteSimpleString "OK", d') ->
     exists e,
       d' = <[nth 1 args "" := mkKeyValue (nth 2 args "") e]> d /\
       forall d2,
         SetHandler_Handle ToUpper args clock d2
         = (WriteSimpleString "OK",
            <[nth 1 args "" := mkKeyValue (nth 2 args "") e]> d2)) /\
  r1 = (WriteSimpleString "OK",
        <[k := mkKeyValue v1 (Some (c1 0%nat + 100 * Second))]> data) /\
  r2 = (WriteSimpleString "OK", <[k := mkKeyValue v2 None]> data) /\
  TTLHandler_Handle [n3; k] c3 (snd r2) = (WriteInteger (-1), snd r2) /\
  (forall k', k' <> k ->
     snd r1 !! k' = data !! k' /\ snd r2 !! k' = data !! k').
Proof.
  intros HEX. cbv zeta.
  assert (E1 : SetHandler_Handle ToUpper [n1; k; v1; "EX"; "100"] c1 data
               = (WriteSimpleString "OK",
                  <[k := mkKeyValue v1 (Some (c1 0%nat + 100 * Second))]> data)).
  { unfold SetHandler_Handle.
    cbn [length Nat.ltb Nat.leb nth drop SetHandler_options].
    rewrite HEX. reflexivity. }
  assert (E2 : forall d, SetHandler_Handle ToUpper [n2; k; v2] c2 d
                         = (WriteSimpleString "OK", <[k := mkKeyValue v2 None]> d))
    by reflexivity.
  rewrite E1, E2. cbn [snd]. rewrite insert_insert_eq.
  split; [|split; [reflexivity|split; [reflexivity|split]]].
  - intros args clock d d' H.
    destruct (SetHandler_success _ _ _ _ _ H) as (e & Ee & ->).
    exists e. split; [reflexivity|]. intros d2.
    unfold SetHandler_Handle in *. destruct (length args <? 3)%nat.
    + discriminate H.
    + now rewrite Ee.
  - apply TTLHandler_no_expiry with (v := v2). apply lookup_insert_eq.
  - intros k' Hk. split; now apply lookup_insert_ne.
Qed.

Lemma SetHandler_overwrites_witness :
  let clock : Clock := fun _ => 7 in
  let r1 := SetHandler_Handle ToUpperASCII ["SET"; "k"; "a"; "EX"; "100"] clock ∅ in
  let r2 := SetHandler_Handle ToUpperASCII ["SET"; "k"; "b"] clock (snd r1) in
  ToUpperASCII "EX" = "EX" /\
  r2 = (WriteSimpleString "OK", <["k" := mkKeyValue "b" None]> ∅) /\
  TTLHandler_Handle ["TTL"; "k"] clock (snd r2) = (WriteInteger (-1), snd r2).
Proof.
  cbv zeta.
  pose proof (SetHandler_overwrites ToUpperASCII "SET" "SET" "TTL" "k" "a" "b"
                (fun _ => 7) (fun _ => 7) (fun _ => 7) ∅ eq_refl) as H.
  cbv zeta in H. destruct H as (_ & _ & H2 & H3 & _).
  split; [reflexivity|]. split; [exact H2 | exact H3].
Defined.

(** ** Entries without an expiry *)

Section NoExpiry.

Variable ToUpper : string -> string.
Variables (k v : string).

Lemma cleanupExpired_keeps_entry now key data :
  no_expiry_entry k v data -> no_expiry_entry k v (cleanupExpired now key data).
Proof.
  unfold no_expiry_entry. intros H. rewrite cleanupExpired_lookup.
  destruct (decide (key = k)); [|exact H]. now rewrite H.
Qed.

Lemma GetHandler_keeps_entry args clock data :
  no_expiry_entry k v data -> no_expiry_entry k v (snd (GetHandler_Handle args clock data)).
Proof.
  intros H. unfold GetHandler_Handle.
  destruct (negb (length args =? 2)%nat); [exact H|].
  pose proof (cleanupExpired_keeps_entry (clock 0%nat) (nth 1 args "") data H) as Hc.
  now destruct (cleanupExpired _ _ _ !! nth 1 args "").
Qed.

Lemma TTLHandler_keeps_entry args clock data :
  no_expiry_entry k v data -> no_expiry_entry k v (snd (TTLHandler_Handle args clock data)).
Proof.
  intros H. unfold TTLHandler_Handle.
  destruct (negb (length args =? 2)%nat); [exact H|].
  pose proof (cleanupExpired_keeps_entry (clock 0%nat) (nth 1 args "") data H) as Hc.
  destruct (cleanupExpired _ _ _ !! nth 1 args "") as [[w [t|]]|] eqn:E;
    cbn [ExpiresAt]; try exact Hc.
  destruct (_ <=? 0); [|exact Hc]. cbn [snd]. unfold no_expiry_entry in *.
  destruct (decide (nth 1 args "" = k)) as [Hk|Hk].
  - rewrite Hk in E, Hc. rewrite Hc in E. discriminate E.
  - now rewrite lookup_delete_ne.
Qed.

Lemma Handle_keeps_entry h args clock data :
  (h = SetHandler -> nth 1 args "" <> k) ->
  no_expiry_entry k v data -> no_expiry_entry k v (snd (Handle ToUpper h args clock data)).
Proof.
  intros Hh H. destruct h; cbn [Handle snd]; auto.
  - unfold no_expiry_entry. rewrite SetHandler_frame; auto.
  - now apply GetHandler_keeps_entry.
  - now apply TTLHandler_keeps_entry.
Qed.

Lemma run_keeps_entry calls data :
  Forall (fun '(h, args, _) => h = SetHandler -> nth 1 args "" <> k) calls ->
  no_expiry_entry k v data -> no_expiry_entry k v (run ToUpper calls data).
Proof.
  intros Hcalls. revert data.
  induction Hcalls as [|[[h args] clock] calls Hh _ IH]; intros data H;
    cbn [run]; [exact H|].
  apply IH. now apply Handle_keeps_entry.
Qed.

End NoExpiry.

(** Calls that do not overlap keep an entry without expiry.  After SET
    k v without options, and after any calls of the handlers made one
    after the other, at any instants, among which no SET names k, TTL k
    replies -1 and GET k replies v, and neither removes the entry. *)
Theorem entry_without_expiry_persists (ToUpper : string -> string)
    (name nameT nameG k v : string) (clock clockT clockG : Clock)
    (data0 : gmap string KeyValue)
    (calls : list (CommandHandler * list string * Clock)) :
  Forall (fun '(h, args, _) => h = SetHandler -> nth 1 args "" <> k) calls ->
  let r := SetHandler_Handle ToUpper [name; k; v] clock data0 in
  let data := run ToUpper calls (snd r) in
  fst r = WriteSimpleString "OK" /\
  data !! k = Some (mkKeyValue v None) /\
  TTLHandler_Handle [nameT; k] clockT data = (WriteInteger (-1), data) /\
  GetHandler_Handle [nameG; k] clockG data = (WriteBulkString v, data).
Proof.
  intros Hcalls. cbv zeta. split; [reflexivity|].
  assert (H : no_expiry_entry k v (run ToUpper calls
                          (snd (SetHandler_Handle ToUpper [name; k; v] clock data0)))).
  { apply run_keeps_entry; [exact Hcalls|]. apply lookup_insert_eq. }
  unfold no_expiry_entry in H. split; [exact H|]. split.
  - now apply TTLHandler_no_expiry with (v := v).
  - unfold GetHandler_Handle. cbn [length Nat.eqb negb nth].
    unfold cleanupExpired, isExpired. rewrite H. cbn [ExpiresAt].
    now rewrite H.
Qed.

Lemma entry_without_expiry_persists_witness :
  let late : Clock := fun _ => 2 ^ 62 in
  let calls :=
    [(GetHandler, ["GET"; "k"], late);
     (SetHandler, ["SET"; "other"; "w"; "PX"; "1"], late);
     (TTLHandler, ["TTL"; "other"], late);
     (TTLHandler, ["TTL"; "k"], late)] in
  let r := SetHandler_Handle ToUpperASCII ["SET"; "k"; "v"] (fun _ => 0) ∅ in
  let data := run ToUpperASCII calls (snd r) in
  TTLHandler_Handle ["TTL"; "k"] late data = (WriteInteger (-1), data) /\
  GetHandler_Handle ["GET"; "k"] late data = (WriteBulkString "v", data).
Proof.
  cbv zeta.
  pose proof (entry_without_expiry_persists ToUpperASCII "SET" "TTL" "GET"
                "k" "v" (fun _ => 0) (fun _ => 2 ^ 62) (fun _ => 2 ^ 62) ∅
                [(GetHandler, ["GET"; "k"], fun _ => 2 ^ 62);
                 (SetHandler, ["SET"; "other"; "w"; "PX"; "1"], fun _ => 2 ^ 62);
                 (TTLHandler, ["TTL"; "other"], fun _ => 2 ^ 62);
                 (TTLHandler, ["TTL"; "k"], fun _ => 2 ^ 62)]) as H.
  cbv zeta in H.
  destruct H as (_ & _ & HT & HG); [repeat constructor; discriminate|].
  split; [exact HT | exact HG].
Defined.

(** ** TTL and a concurrent SET *)

(** A call of TTL that nothing interrupts is its two parts in a row. *)
Lemma TTLHandler_Handle_sections (name key : string) (clock : Clock)
    (data : gmap string KeyValue) :
  TTLHandler_Handle [name; key] clock data
  = TTLHandler_Handle_reply key clock
      (fst (TTLHandler_Handle_lookup key clock data))
      (snd (TTLHandler_Handle_lookup key clock data)).
Proof.
  unfold TTLHandler_Handle, TTLHandler_Handle_reply, TTLHandler_Handle_lookup.
  cbn [length Nat.eqb negb nth fst snd].
  now destruct (cleanupExpired (clock 0%nat) key data !! key) as [[v [t|]]|].
Qed.

(** C5 fails on the code when calls overlap.  Let k hold a value that
    expires at t, and let a TTL k look the key up just before t.  A SET
    k v2 without options, from another connection, then takes the mutex
    and stores v2 with no expiry.  The TTL goes on with the entry it
    looked up, finds no time left on it just after t, and deletes k:
    the entry that the SET has written is gone, and from then on TTL k
    replies -2 and GET k replies the null bulk string, though no SET has
    overwritten the key. *)
Theorem TTLHandler_deletes_concurrent_SET (ToUpper : string -> string)
    (name nameT nameG k v1 v2 : string) (t : Time)
    (clockS clockT' clockG : Clock) (data0 : gmap string KeyValue) :
  let data := <[k := mkKeyValue v1 (Some t)]> data0 in
  let clockT : Clock := fun n => t - 1 + 2 * Z.of_nat n in
  let looked := TTLHandler_Handle_lookup k clockT data in
  let set := SetHandler_Handle ToUpper [name; k; v2] clockS (snd looked) in
  let ttl := TTLHandler_Handle_reply k clockT (fst looked) (snd set) in
  looked = (Some (mkKeyValue v1 (Some t)), data) /\
  set = (WriteSimpleString "OK", <[k := mkKeyValue v2 None]> data) /\
  no_expiry_entry k v2 (snd set) /\
  ttl = (WriteInteger (-2), delete k data) /\
  snd ttl !! k = None /\
  TTLHandler_Handle [nameT; k] clockT' (snd ttl) = (WriteInteger (-2), snd ttl) /\
  GetHandler_Handle [nameG; k] clockG (snd ttl)
  = (WriteNullBulkString, snd ttl) /\
  WriteInteger (-2) <> WriteInteger (-1) /\
  WriteNullBulkString <> WriteBulkString v2.
Proof.
  cbv zeta.
  assert (E1 : TTLHandler_Handle_lookup k (fun n => t - 1 + 2 * Z.of_nat n)
                 (<[k := mkKeyValue v1 (Some t)]> data0)
               = (Some (mkKeyValue v1 (Some t)),
                  <[k := mkKeyValue v1 (Some t)]> data0)).
  { unfold TTLHandler_Handle_lookup, cleanupExpired, isExpired, Time_After.
    rewrite lookup_insert_eq. cbn [ExpiresAt].
    replace (t <? t - 1 + 2 * Z.of_nat 0) with false
      by (symmetry; apply Z.ltb_ge; lia).
    now rewrite lookup_insert_eq. }
  rewrite E1. cbn [fst snd].
  assert (E2 : SetHandler_Handle ToUpper [name; k; v2] clockS
                 (<[k := mkKeyValue v1 (Some t)]> data0)
               = (WriteSimpleString "OK",
                  <[k := mkKeyValue v2 None]>
                    (<[k := mkKeyValue v1 (Some t)]> data0))) by reflexivity.
  rewrite E2. cbn [fst snd].
  assert (E3 : TTLHandler_Handle_reply k (fun n => t - 1 + 2 * Z.of_nat n)
                 (Some (mkKeyValue v1 (Some t)))
                 (<[k := mkKeyValue v2 None]>
                    (<[k := mkKeyValue v1 (Some t)]> data0))
               = (WriteInteger (-2),
                  delete k (<[k := mkKeyValue v1 (Some t)]> data0))).
  { unfold TTLHandler_Handle_reply. cbn [ExpiresAt].
    replace (Until (t - 1 + 2 * Z.of_nat 1) t <=? 0) with true
      by (symmetry; apply Z.leb_le; unfold Until, minInt64, maxInt64; lia).
    now rewrite delete_insert_eq. }
  rewrite E3. cbn [fst snd].
  assert (Hgone : delete k (<[k := mkKeyValue v1 (Some t)]> data0) !! k = None)
    by apply lookup_delete_eq.
  repeat split; try reflexivity.
  - unfold no_expiry_entry. apply lookup_insert_eq.
  - exact Hgone.
  - now apply TTLHandler_absent.
  - unfold GetHandler_Handle. cbn [length Nat.eqb negb nth].
    unfold cleanupExpired, isExpired. now rewrite Hgone, Hgone.
  - discriminate.
  - intros H. symmetry in H. now destruct (WriteBulkString_not_null _ H).
Qed.

(** * Further properties of the code *)

(** ** The parser *)

(** X4.  A call of [Parse] ends, in a value, an error or a panic; it
    never leaves more bytes pending than it found, and a value is
    returned only after a byte or more is consumed. *)
Theorem Parse_consumes (p : Reader) :
  exists o p', Parse p = Some (o, p') /\
    (String.length (pending p') <= String.length (pending p))%nat /\
    (forall v, o = Ok v ->
       (String.length (pending p') < String.length (pending p))%nat).
Proof. apply Parse_fuel_total. lia. Qed.

(** The bytes ['\r'] and ['\n'] before a frame are passed over. *)
Lemma Parse_skip (p : Reader) (c : ascii) (rest : string) :
  pending p = String c rest -> c = CR \/ c = LF ->
  Parse p = Parse (snd (ReadByte p)) /\ pending (snd (ReadByte p)) = rest.
Proof.
  intros Hp Hc. destruct (Parse_tag _ _ _ Hp) as (p1 & E & Hp1 & ->).
  rewrite E. cbn [snd]. split; [|exact Hp1].
  rewrite Hp. cbn [String.length]. unfold Parse. rewrite Hp1.
  now destruct Hc as [-> | ->].
Qed.

(** X7.  A ['\r'] or ['\n'] where a frame should start is skipped: the
    call decodes what follows the byte. *)
Theorem Parse_skips_CR_LF (p : Reader) (c : ascii) (rest : string) :
  pending p = String c rest -> c = CR \/ c = LF ->
  exists p1, pending p1 = rest /\ Parse p = Parse p1.
Proof.
  intros Hp Hc. destruct (Parse_skip _ _ _ Hp Hc) as [E Hp1]. eauto.
Qed.

Lemma Parse_skips_CR_LF_witness :
  exists p1, pending p1 = String LF ("+OK" ++ CRLF) /\
             Parse (NewReader [CRLF ++ "+OK" ++ CRLF]) = Parse p1.
Proof.
  apply (Parse_skips_CR_LF (NewReader [CRLF ++ "+OK" ++ CRLF]) CR
           (String LF ("+OK" ++ CRLF))); [reflexivity | now left].
Defined.

(** X8.  A stream that holds nothing but ['\r'] and ['\n'] bytes, the
    empty stream among them, ends the call with [io.EOF]. *)
Theorem Parse_only_CR_LF_is_EOF (p : Reader) :
  (forall c, In c (list_ascii_of_string (pending p)) -> c = CR \/ c = LF) ->
  exists p', Parse p = Some (Err io_EOF, p') /\ pending p' = "".
Proof.
  remember (pending p) as s eqn:Hs. revert p Hs.
  induction s as [|c s IH]; intros p Hs Hall.
  - pose proof (ReadByte_spec p) as H. rewrite <- Hs in H.
    exists p. split; [|now symmetry]. unfold Parse. rewrite <- Hs.
    cbn [String.length Parse_fuel]. now rewrite H.
  - symmetry in Hs. assert (Hc : c = CR \/ c = LF) by (apply Hall; now left).
    destruct (Parse_skip _ _ _ Hs Hc) as [-> Hp1].
    apply IH; [now symmetry|]. intros c' Hc'. apply Hall. now right.
Qed.

Lemma Parse_only_CR_LF_is_EOF_witness :
  exists p', Parse (NewReader [CRLF; CRLF]) = Some (Err io_EOF, p')
             /\ pending p' = "".
Proof.
  apply (Parse_only_CR_LF_is_EOF (NewReader [CRLF; CRLF])).
  intros c [<-|[<-|[<-|[<-|[]]]]]; [now left | now right | now left | now right].
Defined.

(** X6.  A first byte that is neither a type byte nor ['\r'] or ['\n']
    is an error that names the byte; nothing after it is consumed. *)
Theorem Parse_unknown_type (p : Reader) (c : ascii) (rest : string) :
  pending p = String c rest ->
  ~ In c [CR; LF; Array; BulkString; SimpleString; Error; Integer] ->
  exists p', Parse p = Some (Err (unknown_RESP_type c), p') /\
             pending p' = rest.
Proof.
  intros Hp Hc. destruct (Parse_tag _ _ _ Hp) as (p1 & _ & Hp1 & ->).
  exists p1. split; [|exact Hp1]. cbn [In] in Hc.
  repeat match goal with
    | |- context [Ascii.eqb c ?t] =>
        destruct (Ascii.eqb_spec c t) as [E|_];
          [exfalso; apply Hc; rewrite E; auto 10|]
    end.
  reflexivity.
Qed.

Lemma Parse_unknown_type_witness :
  exists p', Parse (NewReader ["PING" ++ CRLF])
             = Some (Err (unknown_RESP_type "P"), p') /\
             pending p' = "ING" ++ CRLF.
Proof.
  apply (Parse_unknown_type (NewReader ["PING" ++ CRLF]) "P" ("ING" ++ CRLF));
    [reflexivity|].
  cbn [In]. intros [H|[H|[H|[H|[H|[H|[H|[]]]]]]]]; discriminate H.
Defined.

(** X9.  A count, a length or an integer that [strconv.Atoi] does not
    accept is a decode error; the line is consumed and the bytes after
    it are left. *)
Theorem Parse_malformed_number
    (p : Reader) (c : ascii) (l rest : string) (err : error) :
  pending p = String c (l ++ String LF rest) -> cut LF l = None ->
  In c [Array; BulkString; Integer] ->
  Atoi (TrimSuffix (l ++ String LF "") CRLF) = inr err ->
  exists p', Parse p = Some (Err err, p') /\ pending p' = rest.
Proof.
  intros Hp Hl Hc Hn. destruct (Parse_tag _ _ _ Hp) as (p1 & _ & Hp1 & ->).
  destruct (readLine_line _ _ _ Hp1 Hl) as (p' & E & Hp').
  exists p'. split; [|exact Hp']. cbn [In] in Hc.
  destruct Hc as [<-|[<-|[<-|[]]]]; decide_tag;
    unfold parseArray, parseBulkString, parseInteger; now rewrite E, Hn.
Qed.

Lemma Parse_malformed_number_witness :
  exists p', Parse (NewReader ["$abc" ++ CRLF ++ "+OK" ++ CRLF])
             = Some (Err strconv_NumError, p') /\
             pending p' = "+OK" ++ CRLF.
Proof.
  apply (Parse_malformed_number
           (NewReader ["$abc" ++ CRLF ++ "+OK" ++ CRLF]) BulkString
           ("abc" ++ String CR "") ("+OK" ++ CRLF) strconv_NumError);
    [reflexivity | reflexivity | right; now left | reflexivity].
Defined.

(** X10.  A bulk string whose declared length is below -1 makes [Parse]
    panic in [make], as a negative array count does. *)
Theorem Parse_negative_BulkString_length_panics
    (p : Reader) (l rest : string) (length : Z) :
  pending p = String BulkString (l ++ String LF rest) -> cut LF l = None ->
  Atoi (TrimSuffix (l ++ String LF "") CRLF) = inl length -> length < -1 ->
  exists msg p', Parse p = Some (Panic msg, p').
Proof.
  intros Hp Hl Hn Hneg. destruct (Parse_tag _ _ _ Hp) as (p1 & _ & Hp1 & ->).
  decide_tag.
  destruct (parseBulkString_length _ _ _ _ Hp1 Hl Hn) as (p' & _ & ->).
  replace (length =? -1) with false by (symmetry; apply Z.eqb_neq; lia).
  replace (length <? 0) with true by (symmetry; apply Z.ltb_lt; lia).
  eauto.
Qed.

Lemma Parse_negative_BulkString_length_panics_witness :
  exists msg p', Parse (NewReader ["$-2" ++ CRLF]) = Some (Panic msg, p').
Proof.
  apply (Parse_negative_BulkString_length_panics (NewReader ["$-2" ++ CRLF])
           ("-2" ++ String CR "") "" (-2)); [reflexivity .. | lia].
Defined.

(** ** Commands on the wire *)

Lemma Parse_fuel_BulkString_buffered (k : nat) (s more : string)
    (conn : list string) :
  Z.of_nat (String.length s) <= maxInt64 ->
  Parse_fuel (S k) {| buf := WriteBulkString s ++ more; rd := conn |}
  = Some (Ok (bulk_value s), {| buf := more; rd := conn |}).
Proof.
  intros Hlen. unfold WriteBulkString. cbn [Parse_fuel].
  cbn [String.append ReadByte buf rd]. decide_tag.
  set (n := Z.of_nat (String.length s)) in *.
  destruct (line_CRLF (Itoa n) (s ++ CRLF ++ more)) as [E1 E2].
  rewrite !str_app_assoc, E1. unfold parseBulkString, readLine.
  rewrite ReadString_buffered by apply cut_CR, Itoa_no_LF.
  rewrite E2, Atoi_Itoa by (unfold minInt64, n; lia).
  replace (n =? -1) with false by (symmetry; apply Z.eqb_neq; lia).
  replace (n <? 0) with false by (symmetry; apply Z.ltb_ge; lia).
  unfold n. rewrite Nat2Z.id, Read_buffered, Nat.sub_diag. cbn [zeros str_repeat].
  now rewrite str_app_nil_r.
Qed.

Lemma parseArray_loop_eq
    (Parse : Reader -> option (outcome RESPValue * Reader))
    (fuel : nat) (i count : Z) (array : list RESPValue) (p : Reader) :
  parseArray_loop Parse fuel i count array p =
  if i <? count then
    match fuel with
    | O => None
    | S fuel' =>
        match Parse p with
        | None => None
        | Some (Ok val, p') =>
            parseArray_loop Parse fuel' (i + 1) count
              (<[Z.to_nat i := val]> array) p'
        | Some (Err err, p') => Some (Err err, p')
        | Some (Panic msg, p') => Some (Panic msg, p')
        end
    end
  else Some (Ok (mkRESPValue Array "" 0 "" array), p).
Proof. destruct fuel; reflexivity. Qed.

Lemma insert_after {A : Type} (l1 l2 : list A) (x y : A) :
  <[length l1 := x]> (l1 ++ y :: l2)%list = (l1 ++ x :: l2)%list.
Proof. induction l1 as [|a l1 IH]; cbn; [reflexivity | f_equal; exact IH]. Qed.

(** The array loop over bulk strings that are in the buffer. *)
Lemma parseArray_loop_bulk
    (Parse : Reader -> option (outcome RESPValue * Reader))
    (conn : list string) (more : string) :
  forall (todo done : list string) (fuel : nat),
    (forall s rest, In s todo ->
       Parse {| buf := WriteBulkString s ++ rest; rd := conn |}
       = Some (Ok (bulk_value s), {| buf := rest; rd := conn |})) ->
    (length todo <= fuel)%nat ->
    parseArray_loop Parse fuel (Z.of_nat (length done))
      (Z.of_nat (length done + length todo))
      (map bulk_value done ++ replicate (length todo) RESPValue_zero)%list
      {| buf := bulk_frames todo ++ more; rd := conn |}
    = Some (Ok (mkRESPValue Array "" 0 "" (map bulk_value (done ++ todo)%list)),
            {| buf := more; rd := conn |}).
Proof.
  induction todo as [|a todo IH]; intros done fuel HP Hfuel;
    rewrite parseArray_loop_eq.
  - rewrite Nat.add_0_r, Z.ltb_irrefl. cbn [length replicate bulk_frames].
    now rewrite !app_nil_r.
  - cbn [length] in *.
    replace (Z.of_nat (length done) <? Z.of_nat (length done + S (length todo)))
      with true by (symmetry; apply Z.ltb_lt; lia).
    destruct fuel as [|fuel]; [lia|].
    cbn [bulk_frames]. rewrite str_app_assoc, HP by now left.
    rewrite Nat2Z.id. cbn [replicate].
    pose proof (insert_after (map bulk_value done)
                  (replicate (length todo) RESPValue_zero)
                  (bulk_value a) RESPValue_zero) as Hins.
    rewrite length_map in Hins. rewrite Hins. clear Hins.
    specialize (IH (done ++ [a])%list fuel).
    rewrite length_app, map_app in IH. cbn [length map] in IH.
    rewrite <- !app_assoc in IH. cbn [app] in IH.
    replace (Z.of_nat (length done) + 1) with (Z.of_nat (length done + 1))
      by lia.
    replace (length done + S (length todo))%nat
      with (length done + 1 + length todo)%nat by lia.
    apply IH; [|lia]. intros s rest Hs. apply HP. now right.
Qed.

Lemma WriteBulkString_length (s : string) :
  (String.length s + 5 <= String.length (WriteBulkString s))%nat.
Proof.
  unfold WriteBulkString. cbn [String.append String.length].
  rewrite !str_app_length. change (String.length CRLF) with 2%nat. lia.
Qed.

Lemma bulk_frames_length (args : list string) :
  (length args <= String.length (bulk_frames args))%nat /\
  (forall a, In a args ->
     (String.length a <= String.length (bulk_frames args))%nat).
Proof.
  induction args as [|b args [IH1 IH2]]; cbn [bulk_frames length In].
  - split; [lia | tauto].
  - rewrite str_app_length. pose proof (WriteBulkString_length b) as Hb.
    split; [lia|]. intros a [->|Ha]; [lia|]. specialize (IH2 a Ha). lia.
Qed.

(** A command frame that is in the buffer decodes to the array of its
    arguments, and nothing after it is touched. *)
Lemma Parse_fuel_command_frame (k : nat) (args : list string) (more : string)
    (conn : list string) :
  (String.length (command_frame args) <= defaultBufSize)%nat ->
  (length args <= k)%nat ->
  Parse_fuel (S k) {| buf := command_frame args ++ more; rd := conn |}
  = Some (Ok (mkRESPValue Array "" 0 "" (map bulk_value args)),
          {| buf := more; rd := conn |}).
Proof.
  intros Hlen Hk. unfold command_frame in *.
  cbn [String.append String.length] in Hlen. rewrite !str_app_length in Hlen.
  destruct (bulk_frames_length args) as [Hn Hargs].
  cbn [Parse_fuel String.append ReadByte buf rd]. decide_tag.
  set (n := Z.of_nat (length args)) in *.
  destruct (line_CRLF (Itoa n) (bulk_frames args ++ more)) as [E1 E2].
  rewrite !str_app_assoc, E1. unfold parseArray, readLine.
  rewrite ReadString_buffered by apply cut_CR, Itoa_no_LF.
  rewrite E2, Atoi_Itoa
    by (unfold minInt64, maxInt64, n, defaultBufSize in *; lia).
  replace (n <? 0) with false by (symmetry; apply Z.ltb_ge; lia).
  unfold n. rewrite Nat2Z.id.
  apply (parseArray_loop_bulk _ conn more args [] k); [|exact Hk].
  intros s rest Hs. destruct k as [|k]; [destruct args; [easy | cbn in Hk; lia]|].
  apply Parse_fuel_BulkString_buffered. specialize (Hargs s Hs).
  unfold maxInt64, defaultBufSize in *. lia.
Qed.

Lemma Parse_command_frame_buffered (args : list string) (more : string)
    (conn : list string) :
  (String.length (command_frame args) <= defaultBufSize)%nat ->
  Parse {| buf := command_frame args ++ more; rd := conn |}
  = Some (Ok (mkRESPValue Array "" 0 "" (map bulk_value args)),
          {| buf := more; rd := conn |}).
Proof.
  intros Hlen. apply Parse_fuel_command_frame; [exact Hlen|].
  unfold pending. cbn [buf rd]. rewrite !str_app_length.
  unfold command_frame. cbn [String.append String.length].
  rewrite !str_app_length. pose proof (bulk_frames_length args) as [H _]. lia.
Qed.

(** X11.  A command, sent as an array of bulk strings in one segment no
    longer than the buffer, decodes to the array of its arguments, and
    the whole frame is consumed. *)
Theorem Parse_command_frame (args : list string) :
  (String.length (command_frame args) <= defaultBufSize)%nat ->
  Parse (NewReader [command_frame args])
  = Some (Ok (mkRESPValue Array "" 0 "" (map bulk_value args)),
          {| buf := ""; rd := [] |}).
Proof.
  intros Hlen.
  pose proof (Parse_command_frame_buffered args "" [] Hlen) as H.
  rewrite str_app_nil_r in H. rewrite <- H.
  apply (Parse_first_segment "*"). exact Hlen.
Qed.

Lemma Parse_command_frame_witness :
  Parse (NewReader [command_frame ["SET"; "k"; "v"]])
  = Some (Ok (mkRESPValue Array "" 0 ""
                [bulk_value "SET"; bulk_value "k"; bulk_value "v"]),
          {| buf := ""; rd := [] |}).
Proof.
  apply (Parse_command_frame ["SET"; "k"; "v"]).
  apply Nat.leb_le. reflexivity.
Defined.

(** ** The connection *)

Lemma extractArgs_loop_strings (array : list RESPValue) :
  forall (done : list string),
    Forall (fun v => Type_ v = BulkString \/ Type_ v = SimpleString) array ->
    extractArgs_loop (length done) array
      (done ++ replicate (length array) "")%list
    = ("", Some (done ++ map payload array)%list).
Proof.
  induction array as [|v array IH]; intros done Hall;
    cbn [extractArgs_loop length replicate map].
  - now rewrite !app_nil_r.
  - apply Forall_cons in Hall as [Hv Hall]. rewrite !insert_after.
    specialize (IH (done ++ [payload v])%list Hall).
    rewrite length_app, <- !app_assoc in IH. cbn [length app] in IH.
    rewrite Nat.add_1_r in IH. unfold payload at 1 in IH.
    destruct Hv as [Hv|Hv]; rewrite Hv in *; exact IH.
Qed.

(** X12.  [extractArgs] on an array of bulk and simple strings returns
    the payloads in order, one per element, and writes nothing. *)
Theorem extractArgs_strings (value : RESPValue) :
  Forall (fun v => Type_ v = BulkString \/ Type_ v = SimpleString)
    (Array_ value) ->
  extractArgs value = ("", Some (map payload (Array_ value))).
Proof. intros H. exact (extractArgs_loop_strings (Array_ value) [] H). Qed.

Lemma extractArgs_strings_witness :
  extractArgs (mkRESPValue Array "" 0 ""
                 [bulk_value "GET"; mkRESPValue SimpleString "k" 0 "" []])
  = ("", Some ["GET"; "k"]).
Proof.
  apply (extractArgs_strings
           (mkRESPValue Array "" 0 ""
              [bulk_value "GET"; mkRESPValue SimpleString "k" 0 "" []])).
  constructor; [now left|]. constructor; [now right|]. constructor.
Defined.

Lemma extractArgs_bulk_values (args : list string) :
  extractArgs (mkRESPValue Array "" 0 "" (map bulk_value args))
  = ("", Some args).
Proof.
  unfold extractArgs. cbn [Array_].
  pose proof (extractArgs_loop_strings (map bulk_value args) []) as H.
  cbn [app length] in H. rewrite H.
  - rewrite map_map. cbn. now rewrite map_id.
  - apply List.Forall_forall. intros v Hv.
    apply in_map_iff in Hv as (s & <- & _).
    now left.
Qed.

(** X13.  One element that is neither a bulk nor a simple string (an
    integer, an error, a nested array) is enough for [extractArgs] to
    write the error "invalid argument type", once, and to return [nil],
    whatever the other elements are. *)
Theorem extractArgs_invalid (value : RESPValue) :
  Exists (fun v => Type_ v <> BulkString /\ Type_ v <> SimpleString)
    (Array_ value) ->
  extractArgs value = (WriteError "invalid argument type", None).
Proof.
  unfold extractArgs. generalize (replicate (length (Array_ value)) "").
  generalize 0%nat. induction (Array_ value) as [|v array IH];
    intros i args Hex; [now apply Exists_nil in Hex|].
  cbn [extractArgs_loop].
  destruct (Ascii.eqb_spec (Type_ v) BulkString) as [Hb|Hb];
    [|destruct (Ascii.eqb_spec (Type_ v) SimpleString) as [Hs|Hs]];
    try reflexivity;
    apply IH; apply Exists_cons in Hex as [[H1 H2]|Hex];
    try contradiction; exact Hex.
Qed.

Lemma extractArgs_invalid_witness :
  extractArgs (mkRESPValue Array "" 0 ""
                 [bulk_value "GET"; mkRESPValue Integer "" 7 "" []])
  = (WriteError "invalid argument type", None).
Proof.
  apply (extractArgs_invalid
           (mkRESPValue Array "" 0 ""
              [bulk_value "GET"; mkRESPValue Integer "" 7 "" []])).
  apply Exists_cons_tl, Exists_cons_hd. split; discriminate.
Defined.

(** The loop of the connection, one round. *)
Lemma Connection_Handle_loop_eq (ToUpper : string -> string) (fuel : nat)
    (p : Reader) (clocks : nat -> Clock) (n : nat)
    (data : gmap string KeyValue) :
  Connection_Handle_loop ToUpper (S fuel) p clocks n data =
  match Parse p with
  | None => None
  | Some (Err err, _) => Some (Closed err, "", data)
  | Some (Panic msg, _) => Some (Crashed msg, "", data)
  | Some (Ok value, p') =>
      if negb (Ascii.eqb (Type_ value) Array)
      then wrote (WriteError "expected array")
             (Connection_Handle_loop ToUpper fuel p' clocks n data)
      else
        match extractArgs value with
        | (w, None) =>
            wrote w (Connection_Handle_loop ToUpper fuel p' clocks n data)
        | (_, Some args) =>
            let '(reply, data') :=
              HandleCommand ToUpper args (clocks n) data in
            wrote reply
              (Connection_Handle_loop ToUpper fuel p' clocks (S n) data')
        end
  end.
Proof. reflexivity. Qed.

(** Fuel above the number of pending bytes is as good as any. *)
Lemma Connection_Handle_loop_fuel (ToUpper : string -> string)
    (clocks : nat -> Clock) (f1 : nat) :
  forall f2 p n data,
    (String.length (pending p) < f1)%nat ->
    (String.length (pending p) < f2)%nat ->
    Connection_Handle_loop ToUpper f1 p clocks n data
    = Connection_Handle_loop ToUpper f2 p clocks n data.
Proof.
  induction f1 as [|f1 IH]; intros f2 p n data H1 H2; [lia|].
  destruct f2 as [|f2]; [lia|]. rewrite !Connection_Handle_loop_eq.
  destruct (Parse_total p) as (o & p' & -> & Hlt).
  destruct o as [value|err|msg]; [|reflexivity..].
  specialize (Hlt value eq_refl).
  destruct (negb (Ascii.eqb (Type_ value) Array));
    [f_equal; apply IH; lia|].
  destruct (extractArgs value) as [w [args|]].
  - destruct (HandleCommand ToUpper args (clocks n) data) as [reply data'].
    f_equal; apply IH; lia.
  - f_equal; apply IH; lia.
Qed.

Lemma command_frame_length (args : list string) :
  (1 <= String.length (command_frame args))%nat.
Proof. unfold command_frame. cbn [String.append String.length]. lia. Qed.

Lemma command_frames_length (cmds : list (list string)) :
  (length cmds <= String.length (command_frames cmds))%nat /\
  (forall cmd, In cmd cmds ->
     (String.length (command_frame cmd)
      <= String.length (command_frames cmds))%nat).
Proof.
  induction cmds as [|c cmds [IH1 IH2]]; cbn [command_frames length In].
  - split; [lia | tauto].
  - rewrite str_app_length. pose proof (command_frame_length c) as Hc.
    split; [lia|]. intros cmd [->|H]; [lia|]. specialize (IH2 cmd H). lia.
Qed.

(** The loop over command frames that are in the buffer. *)
Lemma Connection_Handle_loop_frames (ToUpper : string -> string)
    (clocks : nat -> Clock) (cmds : list (list string)) :
  forall fuel n data,
    (String.length (command_frames cmds) <= defaultBufSize)%nat ->
    (length cmds < fuel)%nat ->
    Connection_Handle_loop ToUpper fuel
      {| buf := command_frames cmds; rd := [] |} clocks n data
    = Some (Closed io_EOF, fst (serve ToUpper cmds clocks n data),
            snd (serve ToUpper cmds clocks n data)).
Proof.
  induction cmds as [|cmd cmds IH]; intros fuel n data Hlen Hfuel;
    (destruct fuel as [|fuel]; [cbn [length] in Hfuel; lia|]);
    rewrite Connection_Handle_loop_eq; cbn [command_frames].
  - reflexivity.
  - cbn [command_frames length] in *. rewrite str_app_length in Hlen.
    rewrite Parse_command_frame_buffered by lia.
    cbn [Type_ negb]. change (Ascii.eqb Array Array) with true. cbn [negb].
    rewrite extractArgs_bulk_values. cbn [serve].
    destruct (HandleCommand ToUpper cmd (clocks n) data) as [reply data'].
    rewrite IH by lia.
    now destruct (serve ToUpper cmds clocks (S n) data') as [out data''].
Qed.

(** X14.  Commands that arrive together, as array frames of bulk strings
    in one segment no longer than the buffer, are all handled, in their
    order: the client is sent the replies of [HandleCommand] one after
    the other, the store is the one they leave, and the connection is
    closed at the end of the stream. *)
Theorem Connection_Handle_pipeline (ToUpper : string -> string)
    (cmds : list (list string)) (clocks : nat -> Clock)
    (data : gmap string KeyValue) :
  (String.length (command_frames cmds) <= defaultBufSize)%nat ->
  Connection_Handle ToUpper (NewReader [command_frames cmds]) clocks data
  = Some (Closed io_EOF, fst (serve ToUpper cmds clocks 0 data),
          snd (serve ToUpper cmds clocks 0 data)).
Proof.
  intros Hlen. unfold Connection_Handle.
  rewrite <- (Connection_Handle_loop_frames ToUpper clocks cmds
                (S (String.length (pending (NewReader [command_frames cmds]))))
                0 data Hlen).
  - rewrite !Connection_Handle_loop_eq. destruct cmds as [|cmd cmds];
      [reflexivity|].
    cbn [command_frames] in *.
    assert (E : exists w, command_frame cmd ++ command_frames cmds
                          = String "*" w) by (now eexists).
    destruct E as [w E]. rewrite E in *.
    now rewrite (Parse_first_segment "*") by exact Hlen.
  - unfold pending, NewReader. cbn [buf rd conn_bytes String.append].
    rewrite str_app_nil_r. pose proof (command_frames_length cmds) as [H _].
    lia.
Qed.

Lemma Connection_Handle_pipeline_witness :
  Connection_Handle ToUpperASCII
    (NewReader [command_frames [["PING"]; ["set"; "k"; "v"]; ["GET"; "k"]]])
    (fun _ _ => 0) ∅
  = Some (Closed io_EOF,
          WriteSimpleString "PONG" ++ WriteSimpleString "OK"
          ++ WriteBulkString "v",
          <["k" := mkKeyValue "v" None]> ∅).
Proof.
  rewrite (Connection_Handle_pipeline ToUpperASCII
             [["PING"]; ["set"; "k"; "v"]; ["GET"; "k"]] (fun _ _ => 0) ∅).
  - vm_compute. reflexivity.
  - apply Nat.leb_le. reflexivity.
Defined.

(** X15.  A frame that decodes to a value other than an array is
    answered with the error "expected array", leaves the store as it is,
    and the connection goes on with what follows the frame. *)
Theorem Connection_Handle_expected_array (ToUpper : string -> string)
    (p p' : Reader) (value : RESPValue) (clocks : nat -> Clock)
    (data : gmap string KeyValue) :
  Parse p = Some (Ok value, p') -> Type_ value <> Array ->
  Connection_Handle ToUpper p clocks data
  = wrote (WriteError "expected array")
      (Connection_Handle ToUpper p' clocks data).
Proof.
  intros HP Hty. unfold Connection_Handle.
  rewrite Connection_Handle_loop_eq, HP.
  destruct (Ascii.eqb_spec (Type_ value) Array) as [E|_]; [contradiction|].
  cbn [negb]. f_equal.
  destruct (Parse_total p) as (o & q & E & Hlt). rewrite HP in E.
  injection E as <- <-. specialize (Hlt value eq_refl).
  apply Connection_Handle_loop_fuel; lia.
Qed.

Lemma Connection_Handle_expected_array_witness :
  Connection_Handle ToUpperASCII
    (NewReader [WriteSimpleString "PING" ++ command_frame ["PING"]])
    (fun _ _ => 0) ∅
  = wrote (WriteError "expected array")
      (Connection_Handle ToUpperASCII
         {| buf := command_frame ["PING"]; rd := [] |} (fun _ _ => 0) ∅).
Proof.
  apply (Connection_Handle_expected_array ToUpperASCII
           (NewReader [WriteSimpleString "PING" ++ command_frame ["PING"]])
           {| buf := command_frame ["PING"]; rd := [] |}
           (mkRESPValue SimpleString "PING" 0 "" []));
    [reflexivity | discriminate].
Defined.

(** X16.  A request that does not start with a type byte, such as a
    command typed as plain text, ends the connection: nothing is written
    to the client and the store is left as it is. *)
Theorem Connection_Handle_unknown_type (ToUpper : string -> string)
    (p : Reader) (c : ascii) (rest : string) (clocks : nat -> Clock)
    (data : gmap string KeyValue) :
  pending p = String c rest ->
  ~ In c [CR; LF; Array; BulkString; SimpleString; Error; Integer] ->
  Connection_Handle ToUpper p clocks data
  = Some (Closed (unknown_RESP_type c), "", data).
Proof.
  intros Hp Hc. destruct (Parse_tag _ _ _ Hp) as (p1 & _ & _ & E).
  unfold Connection_Handle. rewrite Connection_Handle_loop_eq, E.
  cbn [In] in Hc.
  repeat match goal with
    | |- context [Ascii.eqb c ?t] =>
        destruct (Ascii.eqb_spec c t) as [E'|_];
          [exfalso; apply Hc; rewrite E'; auto 10|]
    end.
  reflexivity.
Qed.

Lemma Connection_Handle_unknown_type_witness :
  Connection_Handle ToUpperASCII (NewReader ["PING" ++ CRLF]) (fun _ _ => 0) ∅
  = Some (Closed (unknown_RESP_type "P"), "", ∅).
Proof.
  apply (Connection_Handle_unknown_type ToUpperASCII
           (NewReader ["PING" ++ CRLF]) "P" ("ING" ++ CRLF));
    [reflexivity|].
  cbn [In]. intros [H|[H|[H|[H|[H|[H|[H|[]]]]]]]]; discriminate H.
Defined.

(** ** The handlers *)

(** X17.  SET is all or nothing: either it replies OK and the store is
    the old one with the entry of its key replaced, or it replies an
    error and leaves the store as it was. *)
Theorem SetHandler_all_or_nothing (ToUpper : string -> string)
    (args : list string) (clock : Clock) (data : gmap string KeyValue) :
  (exists e,
     SetHandler_Handle ToUpper args clock data
     = (WriteSimpleString "OK",
        <[nth 1 args "" := mkKeyValue (nth 2 args "") e]> data)) \/
  (exists msg,
     SetHandler_Handle ToUpper args clock data = (WriteError msg, data)).
Proof.
  unfold SetHandler_Handle. destruct (length args <? 3)%nat; [right; eauto|].
  destruct (SetHandler_options ToUpper (drop 3 args) clock 0 None)
    as [r|e] eqn:E; [right | left; eauto].
  apply SetHandler_options_error in E as [msg ->]. eauto.
Qed.

Lemma WriteInteger_not_Error (n : Z) (msg : string) :
  WriteInteger n <> WriteError msg.
Proof. unfold WriteInteger, WriteError. cbn [String.append]. discriminate. Qed.

Lemma Handle_error_keeps_store (ToUpper : string -> string)
    (h : CommandHandler) (args : list string) (clock : Clock)
    (data : gmap string KeyValue) (msg : string) :
  fst (Handle ToUpper h args clock data) = WriteError msg ->
  snd (Handle ToUpper h args clock data) = data.
Proof.
  destruct h; cbn [Handle fst snd]; try reflexivity.
  - unfold SetHandler_Handle. destruct (length args <? 3)%nat; [reflexivity|].
    destruct (SetHandler_options ToUpper (drop 3 args) clock 0 None);
      [reflexivity|].
    cbn [fst snd]. intros H. symmetry in H.
    now destruct (WriteError_not_OK _ H).
  - unfold GetHandler_Handle. destruct (negb (length args =? 2)%nat);
      [reflexivity|].
    destruct (cleanupExpired _ _ _ !! _); cbn [fst snd]; intros H.
    + now destruct (WriteBulkString_not_Error _ _ H).
    + discriminate H.
  - unfold TTLHandler_Handle. destruct (negb (length args =? 2)%nat);
      [reflexivity|].
    destruct (cleanupExpired _ _ _ !! _) as [[v [t|]]|]; cbn [ExpiresAt];
      try destruct (_ <=? 0); cbn [fst snd]; intros H;
      now destruct (WriteInteger_not_Error _ _ H).
Qed.

(** X18.  A command that is answered with an error leaves the store as
    it was, whichever the command: an empty or unknown one, a wrong
    number of arguments, or an option of SET that is not accepted. *)
Theorem HandleCommand_error_keeps_store (ToUpper : string -> string)
    (cmd : list string) (clock : Clock) (data : gmap string KeyValue)
    (msg : string) :
  fst (HandleCommand ToUpper cmd clock data) = WriteError msg ->
  snd (HandleCommand ToUpper cmd clock data) = data.
Proof.
  unfold HandleCommand. destruct cmd as [|name args]; [reflexivity|].
  destruct (handlers !! ToUpper name) as [h|]; [|reflexivity].
  apply Handle_error_keeps_store.
Qed.

Lemma HandleCommand_error_keeps_store_witness :
  let data : gmap string KeyValue := <["k" := mkKeyValue "v" None]> ∅ in
  snd (HandleCommand ToUpperASCII ["set"; "k"; "w"; "EX"; "0"] (fun _ => 0) data)
  = data.
Proof.
  cbv zeta.
  apply (HandleCommand_error_keeps_store ToUpperASCII
           ["set"; "k"; "w"; "EX"; "0"] (fun _ => 0)
           (<["k" := mkKeyValue "v" None]> ∅)
           "value is not an integer or out of range").
  reflexivity.
Defined.

(** X19.  GET and TTL never add or change an entry: after either, every
    key holds what it held before, except that the key asked for may
    have been removed. *)
Theorem reads_only_remove_their_key (args : list string) (clock : Clock)
    (data : gmap string KeyValue) (k : string) :
  (snd (GetHandler_Handle args clock data) !! k = data !! k \/
   k = nth 1 args "" /\ snd (GetHandler_Handle args clock data) !! k = None)
  /\
  (snd (TTLHandler_Handle args clock data) !! k = data !! k \/
   k = nth 1 args "" /\ snd (TTLHandler_Handle args clock data) !! k = None).
Proof.
  pose proof (cleanupExpired_lookup (clock 0%nat) (nth 1 args "") k data) as Hc.
  assert (Hclean :
    cleanupExpired (clock 0%nat) (nth 1 args "") data !! k = data !! k \/
    k = nth 1 args "" /\
    cleanupExpired (clock 0%nat) (nth 1 args "") data !! k = None).
  { rewrite Hc. destruct (decide (nth 1 args "" = k)) as [<-|]; [|now left].
    destruct (data !! nth 1 args "") as [[v [t|]]|]; cbn [ExpiresAt]; auto.
    destruct (t <? clock 0%nat); auto. }
  split.
  - unfold GetHandler_Handle. destruct (negb (length args =? 2)%nat);
      [now left|].
    now destruct (cleanupExpired _ _ _ !! nth 1 args "").
  - unfold TTLHandler_Handle. destruct (negb (length args =? 2)%nat);
      [now left|].
    destruct (cleanupExpired _ _ _ !! nth 1 args "") as [[v [t|]]|];
      cbn [ExpiresAt]; try exact Hclean.
    destruct (_ <=? 0); [|exact Hclean]. cbn [snd].
    destruct (decide (nth 1 args "" = k)) as [<-|Hk].
    + right. split; [reflexivity | apply lookup_delete_eq].
    + rewrite lookup_delete_ne by exact Hk. exact Hclean.
Qed.

(** X20.  GET after a SET that succeeded replies the value that was set,
    and keeps the entry, at every instant up to the expiry, the instant
    of expiry included. *)
Theorem GetHandler_after_SetHandler (ToUpper : string -> string)
    (args : list string) (name : string) (clock clock' : Clock)
    (data data' : gmap string KeyValue) :
  SetHandler_Handle ToUpper args clock data = (WriteSimpleString "OK", data') ->
  (forall kv t, data' !! nth 1 args "" = Some kv -> ExpiresAt kv = Some t ->
     clock' 0%nat <= t) ->
  GetHandler_Handle [name; nth 1 args ""] clock' data'
  = (WriteBulkString (nth 2 args ""), data').
Proof.
  intros Hset Hexp. destruct (SetHandler_success _ _ _ _ _ Hset) as (e & _ & ->).
  set (key := nth 1 args "") in *.
  unfold GetHandler_Handle. cbn [length Nat.eqb negb nth].
  unfold cleanupExpired, isExpired, Time_After.
  rewrite lookup_insert_eq. cbn [ExpiresAt]. destruct e as [t|].
  - replace (t <? clock' 0%nat) with false.
    + now rewrite lookup_insert_eq.
    + symmetry. apply Z.ltb_ge.
      apply (Hexp _ t (lookup_insert_eq _ _ _)). reflexivity.
  - now rewrite lookup_insert_eq.
Qed.

Lemma GetHandler_after_SetHandler_witness :
  let data' : gmap string KeyValue :=
    <["k" := mkKeyValue "v" (Some (5 + 10 * Second))]> ∅ in
  GetHandler_Handle ["GET"; "k"] (fun _ => 5 + 10 * Second) data'
  = (WriteBulkString "v", data').
Proof.
  cbv zeta.
  apply (GetHandler_after_SetHandler ToUpperASCII
           ["SET"; "k"; "v"; "ex"; "10"] "GET" (fun _ => 5)
           (fun _ => 5 + 10 * Second) ∅).
  - reflexivity.
  - intros kv t Hkv Ht. rewrite lookup_insert_eq in Hkv.
    injection Hkv as <-. injection Ht as <-. apply Z.le_refl.
Defined.

(** X21.  The command name counts through its upper-cased form only:
    two commands whose names have the same upper-casing and whose
    arguments are the same get the same reply and leave the same
    store. *)
Theorem HandleCommand_case_insensitive (ToUpper : string -> string)
    (name1 name2 : string) (args : list string) (clock : Clock)
    (data : gmap string KeyValue) :
  ToUpper name1 = ToUpper name2 ->
  HandleCommand ToUpper (name1 :: args) clock data
  = HandleCommand ToUpper (name2 :: args) clock data.
Proof.
  intros H. unfold HandleCommand. rewrite H.
  destruct (handlers !! ToUpper name2) as [h|]; [|reflexivity].
  now destruct h.
Qed.

Lemma HandleCommand_case_insensitive_witness :
  HandleCommand ToUpperASCII ["set"; "k"; "v"] (fun _ => 0) ∅
  = HandleCommand ToUpperASCII ["SeT"; "k"; "v"] (fun _ => 0) ∅.
Proof.
  apply (HandleCommand_case_insensitive ToUpperASCII "set" "SeT" ["k"; "v"]).
  reflexivity.
Defined.



(** The expiry that an accepted EX or PX pair stands for, read at the
    [n]-th reading of the clock. *)
Lemma SetHandler_options_last_pair (ToUpper : string -> string)
    (opt val : string) (clock : Clock) (opts : list string) :
  (forall n e0 e,
     SetHandler_options ToUpper (opts ++ [opt; val])%list clock n e0 = inr e ->
     exists d unit,
       Atoi val = inl d /\ 0 < d /\
       (ToUpper opt = "EX" /\ unit = Second \/
        ToUpper opt = "PX" /\ unit = Millisecond) /\
       e = Some (Time_Add (clock (n + Nat.div2 (length opts))%nat)
                   (Duration_mul d unit))) /\
  (forall x n e0 e,
     SetHandler_options ToUpper (x :: opts ++ [opt; val])%list clock n e0
     = inr e ->
     exists d unit,
       Atoi val = inl d /\ 0 < d /\
       (ToUpper opt = "EX" /\ unit = Second \/
        ToUpper opt = "PX" /\ unit = Millisecond) /\
       e = Some (Time_Add (clock (n + Nat.div2 (S (length opts)))%nat)
                   (Duration_mul d unit))).
Proof.
  induction opts as [|y opts [IH1 IH2]].
  - split.
    + intros n e0 e. cbn [app SetHandler_options length Nat.div2].
      rewrite Nat.add_0_r.
      destruct (String.eqb_spec (ToUpper opt) "EX") as [HE|_];
        [|destruct (String.eqb_spec (ToUpper opt) "PX") as [HP|_]];
        try discriminate;
        (destruct (Atoi val) as [d|]; [|discriminate]);
        (destruct (Z.leb_spec d 0); [discriminate|]);
        intros [= <-]; exists d; eexists; repeat split; eauto; lia.
    + intros x n e0 e. cbn [app SetHandler_options].
      destruct (String.eqb (ToUpper x) "EX");
        [|destruct (String.eqb (ToUpper x) "PX")];
        try discriminate;
        (destruct (Atoi opt) as [d|]; [|discriminate]);
        destruct (d <=? 0); discriminate.
  - split; [exact (IH2 y)|].
    intros x n e0 e. cbn [app SetHandler_options length Nat.div2].
    replace (n + S (Nat.div2 (length opts)))%nat
      with (S n + Nat.div2 (length opts))%nat by lia.
    destruct (String.eqb (ToUpper x) "EX");
      [|destruct (String.eqb (ToUpper x) "PX")];
      try discriminate;
      (destruct (Atoi y) as [d|]; [|discriminate]);
      (destruct (d <=? 0); [discriminate|]); apply IH1.
Qed.

(** X23.  When SET is given several EX/PX pairs and succeeds, the expiry
    of the entry is the one of the last pair alone: the clock reading made
    for that pair plus its count, in seconds for EX and in milliseconds
    for PX. *)
Theorem SetHandler_last_option_wins (ToUpper : string -> string)
    (name key value opt val : string) (opts : list string) (clock : Clock)
    (data data' : gmap string KeyValue) :
  SetHandler_Handle ToUpper
    (name :: key :: value :: opts ++ [opt; val])%list clock data
  = (WriteSimpleString "OK", data') ->
  exists d unit,
    Atoi val = inl d /\ 0 < d /\
    (ToUpper opt = "EX" /\ unit = Second \/
     ToUpper opt = "PX" /\ unit = Millisecond) /\
    data' = <[key := mkKeyValue value
                       (Some (Time_Add (clock (Nat.div2 (length opts)))
                                (Duration_mul d unit)))]> data.
Proof.
  intros H. destruct (SetHandler_success _ _ _ _ _ H) as (e & He & ->).
  cbn [drop nth] in *.
  destruct (SetHandler_options_last_pair ToUpper opt val clock opts)
    as [Hlast _].
  destruct (Hlast _ _ _ He) as (d & unit & Hd & Hpos & Hunit & ->).
  exists d, unit. now repeat split.
Qed.

Lemma SetHandler_last_option_wins_witness :
  exists d unit,
    Atoi "250" = inl d /\ 0 < d /\
    (ToUpperASCII "px" = "EX" /\ unit = Second \/
     ToUpperASCII "px" = "PX" /\ unit = Millisecond) /\
    snd (SetHandler_Handle ToUpperASCII
           ["SET"; "k"; "v"; "EX"; "100"; "px"; "250"] (fun n => Z.of_nat n) ∅)
    = <["k" := mkKeyValue "v"
                 (Some (Time_Add 1 (Duration_mul d unit)))]> ∅.
Proof.
  apply (SetHandler_last_option_wins ToUpperASCII "SET" "k" "v" "px" "250"
           ["EX"; "100"] (fun n => Z.of_nat n) ∅).
  reflexivity.
Defined.

(** X24.  Expiry is lazy and GET performs it: a GET past the expiry of
    its key replies the null bulk string and deletes the entry. *)
Theorem GetHandler_removes_expired (name key v : string) (t : Time)
    (clock : Clock) (data : gmap string KeyValue) :
  data !! key = Some (mkKeyValue v (Some t)) -> t < clock 0%nat ->
  GetHandler_Handle [name; key] clock data
  = (WriteNullBulkString, delete key data) /\
  delete key data !! key = None.
Proof.
  intros H Ht. split; [now apply (GetHandler_expired name key v t)|].
  apply lookup_delete_eq.
Qed.

Lemma GetHandler_removes_expired_witness :
  let data : gmap string KeyValue := <["k" := mkKeyValue "v" (Some 5)]> ∅ in
  GetHandler_Handle ["GET"; "k"] (fun _ => 6) data
  = (WriteNullBulkString, delete "k" data) /\
  delete "k" data !! "k" = None.
Proof.
  apply (GetHandler_removes_expired "GET" "k" "v" 5 (fun _ => 6)
           (<["k" := mkKeyValue "v" (Some 5)]> ∅)); reflexivity.
Defined.

(** X25.  The two sentinels of TTL: for a key that is absent the reply
    is -2 and the store is untouched; for a key whose expiry is not after
    the clock reading that TTL measures against, the reply is -2 and the
    entry is deleted; for a key without expiry the reply is -1 and the
    store is untouched. *)
Theorem TTLHandler_sentinels (name key : string) (clock : Clock)
    (data : gmap string KeyValue) :
  (data !! key = None ->
   TTLHandler_Handle [name; key] clock data = (WriteInteger (-2), data)) /\
  (forall v t, data !! key = Some (mkKeyValue v (Some t)) ->
     t <= clock 1%nat ->
     TTLHandler_Handle [name; key] clock data
     = (WriteInteger (-2), delete key data)) /\
  (forall v, data !! key = Some (mkKeyValue v None) ->
     TTLHandler_Handle [name; key] clock data = (WriteInteger (-1), data)).
Proof.
  split; [apply TTLHandler_absent|]. split.
  - intros v t. apply TTLHandler_expired.
  - intros v. apply TTLHandler_no_expiry.
Qed.

Lemma TTLHandler_sentinels_witness :
  TTLHandler_Handle ["TTL"; "k"] (fun _ => 0) ∅ = (WriteInteger (-2), ∅).
Proof.
  destruct (TTLHandler_sentinels "TTL" "k" (fun _ => 0) ∅) as (H & _ & _).
  apply H. reflexivity.
Defined.

(** ** Instances of the round trips *)

Lemma roundtrip_SimpleString_witness :
  exists p',
    Parse (NewReader ["+PO"; "NG" ++ String CR ""; String LF "+"])
    = Some (Ok (mkRESPValue SimpleString "PONG" 0 "" []), p')
    /\ pending p' = "+".
Proof.
  apply (roundtrip_SimpleString
           (NewReader ["+PO"; "NG" ++ String CR ""; String LF "+"])
           "PONG" "+"); reflexivity.
Defined.

Lemma roundtrip_Error_witness :
  exists p',
    Parse (NewReader [WriteError "syntax error"])
    = Some (Ok (mkRESPValue Error "syntax error" 0 "" []), p')
    /\ pending p' = "".
Proof.
  apply (roundtrip_Error (NewReader [WriteError "syntax error"])
           "syntax error" ""); reflexivity.
Defined.

Lemma roundtrip_Integer_witness :
  exists p',
    Parse (NewReader [":-"; "2" ++ CRLF])
    = Some (Ok (mkRESPValue Integer "" (-2) "" []), p')
    /\ pending p' = "".
Proof.
  apply (roundtrip_Integer (NewReader [":-"; "2" ++ CRLF]) (-2) "");
    [reflexivity|]. split; apply Z.leb_le; reflexivity.
Defined.

Lemma roundtrip_BulkString_small_witness :
  Parse (NewReader [WriteBulkString ("a" ++ CRLF ++ String NUL "b")])
  = Some (Ok (mkRESPValue BulkString "" 0 ("a" ++ CRLF ++ String NUL "b") []),
          {| buf := ""; rd := [] |}).
Proof.
  apply (roundtrip_BulkString_small ("a" ++ CRLF ++ String NUL "b")).
  apply Nat.leb_le. reflexivity.
Defined.

Lemma Parse_line_cut_short_witness :
  Parse (NewReader ["*2" ++ String CR ""])
  = Some (Err io_EOF, {| buf := ""; rd := [] |}).
Proof.
  apply (Parse_line_cut_short (NewReader ["*2" ++ String CR ""]) Array
           ("2" ++ String CR "")); [reflexivity | reflexivity | now left].
Defined.
